(** * Spectral Bridges: a shallow embedding of [spectralbridges/__init__.py]

    The three classes of the package ([_KMeans], [_SpectralClustering] and
    [SpectralBridges]) are embedded as Rocq functions over exact real
    arithmetic ([R] stands for the NumPy floating point numbers).

    - NumPy arrays are lists: a 1-D array is a [list R], a 2-D array a list
      of rows.
    - Python exceptions are the [Raise] branch of [result]; the payload is
      the name of the exception class.
    - Objects are records; a method that assigns to [self] returns the
      updated record.
    - The libraries the package calls but does not contain (the NumPy random
      generator, the FAISS k-means trainer, SciPy's graph Laplacian and
      LAPACK's symmetric eigensolver) are the fields of the class
      [Backend].
    - Division is the division of [R], which is total ([x / 0] is [0]); a
      NumPy division by zero gives an infinity or NaN instead.  The model is
      the program wherever the program divides by something other than zero:
      the divisors are the squared centroid distances of line 241, the member
      counts of line 246 and the percentile spread of line 251.  Properties
      of a quotient carry the hypothesis that its divisor is not zero; lines
      251-252 are embedded a second time on [np_float], where the division by
      zero has the value NumPy gives it. *)

From Stdlib Require Import String.
From Stdlib Require Import Reals Lra Lia ZArith Bool List Permutation.
From Stdlib Require Import Sorted.
Import ListNotations.

Open Scope string_scope.
Open Scope list_scope.
Open Scope Z_scope.
Open Scope nat_scope.
Open Scope R_scope.

Set Implicit Arguments.

(** ** Exceptions *)

Inductive result (A : Type) : Type :=
| Ok (a : A)
| Raise (exn : string).

Arguments Ok {A} a.
Arguments Raise {A} exn.

Definition bind {A B : Type} (c : result A) (k : A -> result B) : result B :=
  match c with
  | Ok a => k a
  | Raise e => Raise e
  end.

Notation "x <- c ;; k" := (bind c (fun x => k))
  (at level 61, c at next level, right associativity).
Notation "' pat <- c ;; k" := (bind c (fun x => match x with pat => k end))
  (at level 61, pat pattern, c at next level, right associativity).

(** ** Arrays *)

Abbreviation vec := (list R) (only parsing).
Abbreviation matrix := (list (list R)) (only parsing).

Definition sum (l : list R) : R := fold_right Rplus 0 l.

Fixpoint map2 {A B C : Type} (f : A -> B -> C) (l : list A) (m : list B) : list C :=
  match l, m with
  | a :: l', b :: m' => f a b :: map2 f l' m'
  | _, _ => []
  end.

(** [np.einsum("ij,ij->i", a, b)] on one row. *)
Definition dot (u v : vec) : R := sum (map2 Rmult u v).

Definition vsub (u v : vec) : vec := map2 Rminus u v.

(** [a[i]] for a non-negative index. *)
Definition getitem {A : Type} (l : list A) (i : nat) : result A :=
  match nth_error l i with
  | Some a => Ok a
  | None => Raise "IndexError"
  end.

(** [a[ids]] for an integer index array. *)
Fixpoint take_rows {A : Type} (l : list A) (ids : list nat) : result (list A) :=
  match ids with
  | [] => Ok []
  | i :: ids' =>
      a <- getitem l i ;;
      rest <- take_rows l ids' ;;
      Ok (a :: rest)
  end.

(** [a[mask == i]]: the rows whose mask entry equals [i], in order. *)
Definition mask_select {A : Type} (mask : list Z) (i : Z) (rows : list A) : list A :=
  map snd (filter (fun p => Z.eqb (fst p) i) (combine mask rows)).

(** [a[:, j]] *)
Definition column (j : nat) (a : matrix) : list R := map (fun row => nth j row 0) a.

(** [a.sum(axis=0)] for an array with [m] columns. *)
Definition sum_axis0 (m : nat) (a : matrix) : list R :=
  map (fun j => sum (column j a)) (seq 0 m).

(** [a.argmin()]: the first position of the minimum. *)
Fixpoint argmin_from (best : nat) (bestv : R) (i : nat) (l : list R) : nat :=
  match l with
  | [] => best
  | d :: l' =>
      if Rlt_dec d bestv then argmin_from i d (S i) l'
      else argmin_from best bestv (S i) l'
  end.

Definition argmin (l : list R) : result nat :=
  match l with
  | [] => Raise "ValueError"
  | d :: l' => Ok (argmin_from 0%nat d 1%nat l')
  end.

(** [index.search(q, 1)] of a flat L2 index holding [centroids]: the position
    of the nearest centroid, [-1] when the index is empty. *)
Definition sqdist (q c : vec) : R := dot (vsub q c) (vsub q c).

Definition search1 (centroids : matrix) (q : vec) : Z :=
  match map (sqdist q) centroids with
  | [] => (-1)%Z
  | d :: ds => Z.of_nat (argmin_from 0%nat d 1%nat ds)
  end.

(** ** The external libraries *)

Class Backend : Type := {
  (** state of a [numpy.random.Generator] *)
  RngState : Type;
  (** [np.random.default_rng(seed)] for an integer seed *)
  seed_rng : Z -> RngState;
  (** [rng.integers(high)] *)
  rng_integers : RngState -> nat -> result (nat * RngState);
  (** [rng.choice(n, size=size, p=p)] *)
  rng_choice : RngState -> nat -> nat -> list R -> result (list nat * RngState);
  (** [faiss.Clustering.train] with [niter] rounds on the data, started from
      the given centroids; the result is the final centroid table *)
  faiss_train : nat -> matrix -> matrix -> result matrix;
  (** [scipy.sparse.csgraph.laplacian(a, normed=True)] *)
  laplacian_normed : matrix -> matrix;
  (** [np.linalg.eigh]: ascending eigenvalues and the eigenvector matrix *)
  eigh : matrix -> result (list R * matrix);
  (** an eigendecomposition has one eigenvalue per row of the eigenvector
      matrix *)
  eigh_shape : forall L w V, eigh L = Ok (w, V) -> length w = length V
}.

(** ** [_KMeans] *)

Record KMeans : Type := mkKMeans {
  km_n_clusters : nat;
  km_n_iter : nat;
  km_n_local_trials : option nat;
  km_random_state : option Z;
  km_cluster_centers_ : option matrix;
  km_labels_ : option (list Z)
}.

(** [_KMeans.__init__] *)
Definition KMeans_init (n_clusters n_iter : nat) (n_local_trials : option nat)
    (random_state : option Z) : KMeans :=
  mkKMeans n_clusters n_iter n_local_trials random_state None None.

(** [2 + int(np.log(k))] *)
Definition default_n_local_trials (k : nat) : nat :=
  (2 + Z.to_nat (Int_part (ln (INR k))))%nat.

(** [_KMeans._dists] *)
Definition _dists (X y : matrix) (XX : list R) : matrix :=
  let yy := map (fun c => dot c c) y in
  map2 (fun x xx => map2 (fun c cc => Rmax 0 (xx - 2 * dot x c + cc)) y yy) X XX.

Section WithBackend.

Context {B : Backend}.

(** [np.random.default_rng(random_state)]: a seeded generator, or one seeded
    from fresh operating-system entropy [os] when [random_state] is [None]. *)
Definition default_rng (os : RngState) (random_state : option Z) : RngState :=
  match random_state with
  | Some s => seed_rng s
  | None => os
  end.

(** The loop variables of the seeding loop of [_init_centroids]. *)
Record SeedState : Type := mkSeed {
  sd_rng : RngState;
  sd_dists : list R;
  sd_inertia : R;
  sd_centroids : matrix
}.

(** One round of [for i in range(1, self.n_clusters)]. *)
Definition seed_step (X : matrix) (XX : list R) (n_local_trials : nat)
    (st : SeedState) : result SeedState :=
  ' (candidate_ids, rng) <-
      rng_choice (sd_rng st) (length X) n_local_trials
        (map (fun d => d / sd_inertia st) (sd_dists st)) ;;
  candidates <- take_rows X candidate_ids ;;
  let current_candidates_dists := _dists X candidates XX in
  let candidates_dists :=
    map2 (fun row d => map (fun c => Rmin c d) row)
      current_candidates_dists (sd_dists st) in
  let inertias := sum_axis0 (length candidate_ids) candidates_dists in
  best_inertia <- argmin inertias ;;
  best_candidate <- getitem candidate_ids best_inertia ;;
  inertia <- getitem inertias best_inertia ;;
  x <- getitem X best_candidate ;;
  Ok (mkSeed rng (column best_inertia candidates_dists) inertia
        (sd_centroids st ++ [x])).

Fixpoint seed_loop (X : matrix) (XX : list R) (n_local_trials : nat)
    (rounds : nat) (st : SeedState) : result SeedState :=
  match rounds with
  | O => Ok st
  | S rounds' =>
      st' <- seed_step X XX n_local_trials st ;;
      seed_loop X XX n_local_trials rounds' st'
  end.

(** The assignment [self.n_local_trials = 2 + int(np.log(self.n_clusters))]
    guarded by [if self.n_local_trials is None]. *)
Definition fill_n_local_trials (self : KMeans) : KMeans :=
  match km_n_local_trials self with
  | Some _ => self
  | None =>
      mkKMeans (km_n_clusters self) (km_n_iter self)
        (Some (default_n_local_trials (km_n_clusters self)))
        (km_random_state self) (km_cluster_centers_ self) (km_labels_ self)
  end.

Definition the_n_local_trials (self : KMeans) : nat :=
  match km_n_local_trials self with
  | Some t => t
  | None => default_n_local_trials (km_n_clusters self)
  end.

(** [_KMeans._init_centroids]: the object after the call and the centroids
    returned. *)
Definition _init_centroids (os : RngState) (self : KMeans) (X : matrix)
  : result (KMeans * matrix) :=
  let rng := default_rng os (km_random_state self) in
  ' (i0, rng) <- rng_integers rng (length X) ;;
  x0 <- getitem X i0 ;;
  if (km_n_clusters self =? 0)%nat then Raise "IndexError" else
  let XX := map (fun x => dot x x) X in
  let dists := concat (_dists X [x0] XX) in
  let inertia := sum dists in
  let self := fill_n_local_trials self in
  st <- seed_loop X XX (the_n_local_trials self) (km_n_clusters self - 1)
          (mkSeed rng dists inertia [x0]) ;;
  Ok (self, sd_centroids st).

(** [_KMeans.fit] *)
Definition KMeans_fit (os : RngState) (self : KMeans) (X : matrix)
  : result KMeans :=
  ' (self, init_centroids) <- _init_centroids os self X ;;
  centroids <- faiss_train (km_n_iter self) X init_centroids ;;
  if (length centroids =? km_n_clusters self)%nat then
    Ok (mkKMeans (km_n_clusters self) (km_n_iter self)
          (km_n_local_trials self) (km_random_state self)
          (Some centroids) (Some (map (search1 centroids) X)))
  else Raise "ValueError".

End WithBackend.

(** ** The bridge affinity (the body of [SpectralBridges.fit], lines 220-252) *)

(** [X_centered]: for every node [i], the rows [X[labels == i]] minus the
    centroid of the node. *)
Definition X_centered (n_nodes : nat) (X : matrix) (labels : list Z)
    (centers : matrix) : list matrix :=
  map (fun i =>
         map (fun x => vsub x (nth i centers []))
           (mask_select labels (Z.of_nat i) X))
    (seq 0 n_nodes).

(** [counts[None, :] + counts[:, None]] *)
Definition pair_counts (counts : list nat) : list (list nat) :=
  map (fun ci => map (fun cj => (cj + ci)%nat) counts) counts.

(** [a[i] = v] on a 1-D array *)
Fixpoint set_item (a : list R) (i : nat) (v : R) : list R :=
  match a, i with
  | [], _ => []
  | _ :: a', O => v :: a'
  | x :: a', S i' => x :: set_item a' i' v
  end.

(** One round of the loop [for i in range(self.n_nodes)]: the row
    [affinity[i]].  The divisors [dists] are non-zero when the centroids of
    different nodes differ. *)
Definition affinity_row (centers : matrix) (Xc_i : matrix) (i : nat) : list R :=
  let segments := map (fun c => vsub c (nth i centers [])) centers in
  let dists := set_item (map (fun s => dot s s) segments) i 1 in
  let projs :=
    map (fun r => map2 (fun s d => Rmax 0 (dot r s / d)) segments dists) Xc_i in
  sum_axis0 (length segments) (map (map (fun p => p * p)) projs).

Definition raw_affinity (n_nodes : nat) (centers : matrix) (Xc : list matrix)
  : matrix :=
  map (fun i => affinity_row centers (nth i Xc []) i) (seq 0 n_nodes).

(** [a.T] for an array with [n] columns *)
Definition transpose (n : nat) (a : matrix) : matrix :=
  map (fun j => column j a) (seq 0 n).

Definition madd (a b : matrix) : matrix := map2 (map2 Rplus) a b.

(** [a / counts]; the divisors are non-zero when every node has a member. *)
Definition mdiv_counts (a : matrix) (c : list (list nat)) : matrix :=
  map2 (map2 (fun x k => x / INR k)) a c.

(** [np.sqrt((affinity + affinity.T) / counts)] *)
Definition symmetrize (n_nodes : nat) (affinity : matrix)
    (counts : list (list nat)) : matrix :=
  map (map sqrt) (mdiv_counts (madd affinity (transpose n_nodes affinity)) counts).

(** [a.max()] *)
Definition amax (a : matrix) : R :=
  match concat a with
  | [] => 0
  | x :: l => fold_left Rmax l x
  end.

(** [affinity -= 0.5 * affinity.max()] *)
Definition recenter (affinity : matrix) : matrix :=
  let m := amax affinity in
  map (map (fun a => a - 0.5 * m)) affinity.

Fixpoint insert_sorted (x : R) (l : list R) : list R :=
  match l with
  | [] => [x]
  | y :: l' => if Rle_dec x y then x :: l else y :: insert_sorted x l'
  end.

Definition sort (l : list R) : list R := fold_right insert_sorted [] l.

(** [np.quantile(a, num/den)] with the default linear interpolation between
    the two order statistics around position [(N - 1) * num / den]. *)
Definition quantile (a : list R) (num den : nat) : R :=
  let s := sort a in
  let N := length a in
  let h := (num * (N - 1))%nat in
  let lo := (h / den)%nat in
  let hi := Nat.min (S lo) (N - 1) in
  let g := INR (h mod den) / INR den in
  nth lo s 0 + g * (nth hi s 0 - nth lo s 0).

Definition q10 (affinity : matrix) : R := quantile (concat affinity) 1 10.
Definition q90 (affinity : matrix) : R := quantile (concat affinity) 9 10.

(** [gamma = np.log(self.M) / (q90 - q10)], for [M > 0] and [q90 <> q10] *)
Definition contrast_gamma (M : R) (affinity : matrix) : R :=
  ln M / (q90 affinity - q10 affinity).

(** [np.exp(gamma * a)] for one entry *)
Definition rescale_value (gamma a : R) : R := exp (gamma * a).

(** [affinity = np.exp(gamma * affinity)] *)
Definition rescale (M : R) (affinity : matrix) : matrix :=
  let gamma := contrast_gamma M affinity in
  map (map (rescale_value gamma)) affinity.

(** *** Lines 251-252 on NumPy floats

    Rounding apart, a NumPy float is a real number, an infinity or NaN.
    [np.log] of zero is [-inf] and of a negative number NaN; a non-zero
    number divided by zero is an infinity and [0 / 0] is NaN; an infinity
    times zero is NaN; [np.exp] sends [-inf] to [0], [+inf] to [+inf] and NaN
    to NaN.  None of these raises an exception (NumPy prints a warning). *)
Inductive np_float : Type :=
| Finite (r : R)
| Inf (negative : bool)
| NaN.

(** A choice on the sign of a real number. *)
Definition sign_cases {A : Type} (x : R) (neg zero pos : A) : A :=
  if Rlt_dec x 0 then neg else if Rlt_dec 0 x then pos else zero.

(** [np.log(x)] *)
Definition np_log (x : R) : np_float :=
  sign_cases x NaN (Inf true) (Finite (ln x)).

(** [a / b] for a finite divisor [b]; a zero divisor is the [+0.0] that the
    difference of two equal numbers is. *)
Definition np_div (a : np_float) (b : R) : np_float :=
  match a with
  | Finite x =>
      sign_cases b (Finite (x / b))
        (sign_cases x (Inf true) NaN (Inf false))
        (Finite (x / b))
  | Inf s => sign_cases b (Inf (negb s)) (Inf s) (Inf s)
  | NaN => NaN
  end.

(** [g * a] for a finite [a] *)
Definition np_mul (g : np_float) (a : R) : np_float :=
  match g with
  | Finite x => Finite (x * a)
  | Inf s => sign_cases a (Inf (negb s)) NaN (Inf s)
  | NaN => NaN
  end.

(** [np.exp(x)] *)
Definition np_exp (x : np_float) : np_float :=
  match x with
  | Finite r => Finite (exp r)
  | Inf false => Inf false
  | Inf true => Finite 0
  | NaN => NaN
  end.

(** [gamma = np.log(self.M) / (q90 - q10)] *)
Definition contrast_gamma_np (M : R) (affinity : matrix) : np_float :=
  np_div (np_log M) (q90 affinity - q10 affinity).

(** [affinity = np.exp(gamma * affinity)] *)
Definition rescale_np (M : R) (affinity : matrix) : list (list np_float) :=
  let gamma := contrast_gamma_np M affinity in
  map (map (fun a => np_exp (np_mul gamma a))) affinity.

(** [v > 0] on floats; NaN is not greater than anything. *)
Definition np_positive (v : np_float) : Prop :=
  match v with
  | Finite r => 0 < r
  | Inf negative => negative = false
  | NaN => False
  end.

(** [u == v] on floats; NaN is equal to nothing, itself included. *)
Definition np_eq (u v : np_float) : Prop :=
  match u, v with
  | Finite a, Finite b => a = b
  | Inf s, Inf t => s = t
  | _, _ => False
  end.

(** Entry [(i, j)] of a 2-D array of floats. *)
Definition np_entry (a : list (list np_float)) (i j : nat) : np_float :=
  nth j (nth i a []) NaN.

(** Lines 220-246: the symmetrized affinity before the contrast rescale. *)
Definition bridge_affinity_sym (n_nodes : nat) (X : matrix) (labels : list Z)
    (centers : matrix) : matrix :=
  let Xc := X_centered n_nodes X labels centers in
  let counts := pair_counts (map (@length vec) Xc) in
  symmetrize n_nodes (raw_affinity n_nodes centers Xc) counts.

(** Lines 220-252: the affinity handed to the spectral stage. *)
Definition bridge_affinity (M : R) (n_nodes : nat) (X : matrix)
    (labels : list Z) (centers : matrix) : matrix :=
  rescale M (recenter (bridge_affinity_sym n_nodes X labels centers)).

(** ** [_SpectralClustering] and [SpectralBridges] *)

Record SpectralClustering : Type := mkSpectralClustering {
  sc_n_clusters : nat;
  sc_random_state : option Z;
  sc_labels_ : option (list Z);
  sc_eigvals_ : option (list R)
}.

(** [_SpectralClustering.__init__] *)
Definition SpectralClustering_init (n_clusters : nat) (random_state : option Z)
  : SpectralClustering :=
  mkSpectralClustering n_clusters random_state None None.

Record SpectralBridges : Type := mkSpectralBridges {
  n_clusters : nat;
  n_nodes : nat;
  M : R;
  n_iter : nat;
  n_local_trials : option nat;
  random_state : option Z;
  cluster_centers_ : option (list matrix);
  eigvals_ : option (list R)
}.

(** [SpectralBridges.__init__] *)
Definition SpectralBridges_init (n_clusters n_nodes : nat) (M : R) (n_iter : nat)
    (n_local_trials : option nat) (random_state : option Z) : SpectralBridges :=
  mkSpectralBridges n_clusters n_nodes M n_iter n_local_trials random_state
    None None.

(** The list comprehension of lines 260-263:
    [[centers[labels == i] for i in range(n_clusters)]]. *)
Definition group_centers (n_clusters : nat) (centers : matrix) (labels : list Z)
  : list matrix :=
  map (fun i => mask_select labels (Z.of_nat i) centers) (seq 0 n_clusters).

(** The rows clustered by [_SpectralClustering.fit]: the first [k] columns of
    the eigenvector matrix ([eigvecs[:, :k]]), every row divided by its
    Euclidean norm. *)
Definition embedding (k : nat) (eigvecs : matrix) : matrix :=
  map (fun row => map (fun v => v / sqrt (dot row row)) row)
    (map (firstn k) eigvecs).

Section WithBackendFit.

Context {B : Backend}.

(** [_SpectralClustering.fit] *)
Definition SpectralClustering_fit (os : RngState) (self : SpectralClustering)
    (affinity : matrix) : result SpectralClustering :=
  let L := laplacian_normed affinity in
  ' (eigvals, eigvecs) <- eigh L ;;
  let eigvecs := embedding (sc_n_clusters self) eigvecs in
  kmeans <- KMeans_fit os
              (KMeans_init (sc_n_clusters self) 20 None (sc_random_state self))
              eigvecs ;;
  Ok (mkSpectralClustering (sc_n_clusters self) (sc_random_state self)
        (km_labels_ kmeans) (Some eigvals)).

(** [SpectralBridges.fit].  Each of the two k-means objects creates its own
    random generator; [os1] and [os2] are the operating-system entropy the
    two generators would be seeded from when [random_state] is [None]. *)
Definition fit (os1 os2 : RngState) (self : SpectralBridges) (X : matrix)
  : result SpectralBridges :=
  kmeans <- KMeans_fit os1
              (KMeans_init (n_nodes self) (n_iter self) (n_local_trials self)
                 (random_state self))
              X ;;
  match km_cluster_centers_ kmeans, km_labels_ kmeans with
  | Some centers, Some labels =>
      let affinity := bridge_affinity (M self) (n_nodes self) X labels centers in
      spectralclustering <-
        SpectralClustering_fit os2
          (SpectralClustering_init (n_clusters self) (random_state self))
          affinity ;;
      match sc_labels_ spectralclustering with
      | Some slabels =>
          (* a boolean mask must be as long as the array it indexes *)
          if ((n_clusters self =? 0) || (length slabels =? length centers))%nat
          then
            Ok (mkSpectralBridges (n_clusters self) (n_nodes self) (M self)
                  (n_iter self) (n_local_trials self) (random_state self)
                  (Some (group_centers (n_clusters self) centers slabels))
                  (sc_eigvals_ spectralclustering))
          else Raise "IndexError"
      | None =>
          (* [None == i] is the scalar [False], which selects no row; not
             reached, a successful spectral fit stores its labels *)
          Ok (mkSpectralBridges (n_clusters self) (n_nodes self) (M self)
                (n_iter self) (n_local_trials self) (random_state self)
                (Some (repeat [] (n_clusters self)))
                (sc_eigvals_ spectralclustering))
      end
  | _, _ =>
      (* [__init__] of [_KMeans] creates neither attribute *)
      Raise "AttributeError"
  end.

End WithBackendFit.

(** ** [predict] and [normalized_eigengap] *)

(** [np.cumsum] *)
Fixpoint cumsum_from (acc : nat) (l : list nat) : list nat :=
  match l with
  | [] => []
  | a :: l' => (acc + a)%nat :: cumsum_from (acc + a)%nat l'
  end.

Definition cumsum (l : list nat) : list nat := cumsum_from 0 l.

(** [np.searchsorted(a, v, side="right")] on a non-decreasing [a]: the number
    of entries that are at most [v]. *)
Definition searchsorted_right (a : list nat) (v : Z) : nat :=
  length (filter (fun c => (Z.of_nat c <=? v)%Z) a).

(** [SpectralBridges.predict] on an array [x] of shape [(m, d)]. *)
Definition predict (self : SpectralBridges) (d : nat) (x : matrix)
  : result (list nat) :=
  match cluster_centers_ self with
  | None => Raise "TypeError"
  | Some [] => Raise "ValueError"
  | Some groups =>
      let cluster_centers := concat groups in
      let cluster_cutoffs := cumsum (map (@length vec) groups) in
      (* [index.add] checks the width of the centroid table against the
         dimension of the index *)
      if forallb (fun c => (length c =? d)%nat) cluster_centers then
        let winners := map (search1 cluster_centers) x in
        Ok (map (searchsorted_right cluster_cutoffs) winners)
      else Raise "AssertionError"
  end.

(** [a[i]] for a Python integer: negative indices count from the end. *)
Definition py_getitem {A : Type} (l : list A) (i : Z) : result A :=
  if (0 <=? i)%Z then getitem l (Z.to_nat i)
  else if (- Z.of_nat (length l) <=? i)%Z
       then getitem l (Z.to_nat (Z.of_nat (length l) + i))
       else Raise "IndexError".

(** [SpectralBridges.normalized_eigengap] *)
Definition normalized_eigengap (self : SpectralBridges) : result R :=
  match eigvals_ self with
  | None => Raise "TypeError"
  | Some eigvals =>
      let k := Z.of_nat (n_clusters self) in
      upper <- py_getitem eigvals k ;;
      lower <- py_getitem eigvals (k - 1)%Z ;;
      denom <- py_getitem eigvals k ;;
      Ok ((upper - lower) / denom)
  end.

(** ** Vocabulary of the properties *)

(** The nodes of final cluster [g]: the positions of the label array that
    hold [g]. *)
Definition node_ids (labels : list Z) (g : nat) : list nat :=
  mask_select labels (Z.of_nat g) (seq 0 (length labels)).

(** [groups] distributes the rows of [centers] over [k] groups: one owner in
    [[0, k)] per row, group [g] lists the rows it owns in their original
    order, and together the groups hold every row once.  A group is empty
    exactly when it owns no row. *)
Definition partitions_rows (k : nat) (centers : matrix) (groups : list matrix)
  : Prop :=
  length groups = k /\
  exists owner : list Z,
    length owner = length centers /\
    (forall g, (g < k)%nat ->
       nth g groups [] = map (fun p => nth p centers []) (node_ids owner g)) /\
    (forall g, NoDup (node_ids owner g)) /\
    (forall p, (p < length centers)%nat ->
       exists g, (g < k)%nat /\
         forall g', In p (node_ids owner g') <-> g' = g) /\
    (forall g, (g < k)%nat ->
       nth g groups [] = [] <-> ~ In (Z.of_nat g) owner) /\
    Permutation (concat groups) centers.

(** The position in the stacked table [np.vstack(groups)] at which group [g]
    starts. *)
Definition offset (groups : list matrix) (g : nat) : nat :=
  length (concat (firstn g groups)).

(** Row [w] of the stacked table is a row of group [g]. *)
Definition owns (groups : list matrix) (g w : nat) : Prop :=
  (g < length groups)%nat /\
  (offset groups g <= w < offset groups g + length (nth g groups []))%nat /\
  nth (w - offset groups g) (nth g groups []) [] = nth w (concat groups) [].

(** [labels] classifies the rows of [x] by nearest node centroid: the label
    of row [q] is the group owning the row [w] of the stacked table that the
    search returns for [q], no centroid is nearer to [q] than row [w], and
    the label is what the cumulative group sizes give for [w]. *)
Definition nearest_group_labels (groups : list matrix) (x : matrix)
    (labels : list nat) : Prop :=
  forall i q, nth_error x i = Some q ->
    exists w g,
      nth_error labels i = Some g /\
      search1 (concat groups) q = Z.of_nat w /\
      (w < length (concat groups))%nat /\
      (forall c, In c (concat groups) ->
         sqdist q (nth w (concat groups) []) <= sqdist q c) /\
      g = searchsorted_right (cumsum (map (@length (list R)) groups))
            (Z.of_nat w) /\
      owns groups g w.

(** The bridge affinity in the words of the design document (section 4.2):
    for the ordered pair [(i, j)], [segment = centroid_j - centroid_i] and
    [dist = ||segment||^2] (1 for the pair [(i, i)]); every member residual
    of node [i] contributes its projection onto [segment] divided by [dist],
    clipped at zero and squared. *)
Definition spec_raw (centroids : matrix) (residuals : list matrix) (i j : nat)
  : R :=
  let segment := vsub (nth j centroids []) (nth i centroids []) in
  let dist := if (i =? j)%nat then 1 else dot segment segment in
  sum (map (fun r => (Rmax 0 (dot r segment / dist)) ^ 2) (nth i residuals [])).

Definition spec_affinity (centroids : matrix) (residuals : list matrix)
    (i j : nat) : R :=
  let count_i := INR (length (nth i residuals [])) in
  let count_j := INR (length (nth j residuals [])) in
  sqrt ((spec_raw centroids residuals i j + spec_raw centroids residuals j i)
        / (count_i + count_j)).

(** Entry [(i, j)] of a 2-D array. *)
Definition entry (a : matrix) (i j : nat) : R := nth j (nth i a []) 0.

(** The nodes for which lines 241 and 246 divide by non-zero numbers: every
    node has a member (a sample carrying its label), and the centroids of two
    different nodes are at a non-zero distance. *)
Definition nodes_nondegenerate (n_nodes : nat) (labels : list Z)
    (centers : matrix) : Prop :=
  (forall i, (i < n_nodes)%nat -> In (Z.of_nat i) labels) /\
  (forall i j, (i < n_nodes)%nat -> (j < n_nodes)%nat -> i <> j ->
     sqdist (nth j centers []) (nth i centers []) <> 0).

(** The potential of point [x] once centre [c] is adopted: the smaller of
    its current potential [d] and its clipped squared distance to [c]. *)
Definition potential_after (c x : vec) (d : R) : R :=
  Rmin (Rmax 0 (dot x x - 2 * dot x c + dot c c)) d.

Definition potentials_after (X : matrix) (dists : list R) (c : vec) : list R :=
  map2 (potential_after c) X dists.

Section SeedingVocabulary.

Context {B : Backend}.

(** What the loop variables of the seeding satisfy between two rounds: one
    non-negative potential per point, [inertia] is their total, every
    centroid chosen so far is a row of [X], and a point that is a chosen
    centroid has potential zero. *)
Definition seed_inv (X : matrix) (st : SeedState) : Prop :=
  length (sd_dists st) = length X /\
  Forall (fun d => 0 <= d) (sd_dists st) /\
  sd_inertia st = sum (sd_dists st) /\
  Forall (fun c => In c X) (sd_centroids st) /\
  (forall p, (p < length X)%nat -> In (nth p X []) (sd_centroids st) ->
     nth p (sd_dists st) 0 = 0).

(** The loop variables on entry to the seeding loop, for the first centre
    [x0]. *)
Definition seed_start (X : matrix) (rng : RngState) (x0 : vec) : SeedState :=
  let dists := concat (_dists X [x0] (map (fun x => dot x x) X)) in
  mkSeed rng dists (sum dists) [x0].

End SeedingVocabulary.

(** ** A concrete backend

    A small implementation of the [Backend] interface on which the model can
    be run.  The random generator is a counter, the eigensolver is exact on
    diagonal matrices. *)

Module Scenario.

Definition counter_integers (st : nat) (high : nat) : result (nat * nat) :=
  if (high =? 0)%nat then Raise "ValueError" else Ok ((st mod high)%nat, S st).

(** Every trial draws the last point. *)
Definition counter_choice (st : nat) (n size : nat) (p : list R)
  : result (list nat * nat) :=
  Ok (repeat (n - 1)%nat size, S st).

(** [I - D^(-1/2) A D^(-1/2)] with the diagonal of [A] ignored. *)
Definition sym_laplacian (a : matrix) : matrix :=
  let n := length a in
  let off i j := if (i =? j)%nat then 0 else nth j (nth i a []) 0 in
  let w j := sum (map (fun i => off i j) (seq 0 n)) in
  map (fun i =>
         map (fun j =>
                if (i =? j)%nat then 1
                else - off i j / (sqrt (w i) * sqrt (w j)))
           (seq 0 n))
    (seq 0 n).

Definition diag_eigh (L : matrix) : result (list R * matrix) :=
  let n := length L in
  Ok (map (fun i => nth i (nth i L []) 0) (seq 0 n),
      map (fun i => map (fun j => if (i =? j)%nat then 1 else 0) (seq 0 n))
        (seq 0 n)).

Lemma diag_eigh_shape (L : matrix) (w : list R) (V : matrix) :
  diag_eigh L = Ok (w, V) -> length w = length V.
Proof.
  unfold diag_eigh. intros H. injection H as <- <-.
  now rewrite !length_map.
Qed.

(** The trainer leaves the seeds where they are. *)
Definition seeds_train (niter : nat) (X init : matrix) : result matrix :=
  Ok init.

#[local] Instance seeds_backend : Backend := {|
  RngState := nat;
  seed_rng := Z.to_nat;
  rng_integers := counter_integers;
  rng_choice := counter_choice;
  faiss_train := seeds_train;
  laplacian_normed := sym_laplacian;
  eigh := diag_eigh;
  eigh_shape := diag_eigh_shape
|}.

(** Three points on a line; the first k-means runs no refinement round, so
    its two nodes sit on the seeds [[0]] and [[3]]. *)
Definition three_points : matrix := [[0]; [1]; [3]].

(** Two nodes grouped into one final cluster. *)
Definition coarse : SpectralBridges :=
  SpectralBridges_init 1 2 10000 0 (Some 1%nat) (Some 0%Z).

(** As many final clusters as nodes. *)
Definition full_split : SpectralBridges :=
  SpectralBridges_init 2 2 10000 0 (Some 1%nat) (Some 0%Z).

(** Another seed: the two nodes sit on [[1]] and [[3]], and no sample lies
    between its own centroid and the other one. *)
Definition one_sided : SpectralBridges :=
  SpectralBridges_init 1 2 10000 0 (Some 1%nat) (Some 1%Z).

End Scenario.

(** * Properties *)

Unset Implicit Arguments.

Lemma bind_Ok_inv {A B : Type} (c : result A) (k : A -> result B) (b : B) :
  bind c k = Ok b -> exists a, c = Ok a /\ k a = Ok b.
Proof.
  destruct c as [a|e]; simpl; intros H; [exists a; auto | discriminate].
Qed.

(** Running the model on concrete arrays: everything is computed except the
    real-number operations and the default number of trials. *)
Ltac model_eval :=
  cbv - [Rplus Rminus Rmult Rdiv Rinv Ropp Rmax Rmin Rlt_dec Rle_dec sqrt exp ln
         IZR INR Int_part R0 R1 Rlt Rle default_n_local_trials].

(** A strict comparison of a number with itself takes the [else] branch. *)
Ltac same_dec :=
  repeat match goal with
         | |- context [Rlt_dec ?a ?a] =>
             destruct (Rlt_dec a a) as [Hc|_];
             [exfalso; exact (Rlt_irrefl _ Hc)|]
         end.

Lemma exp_1_gt_2 : 2 < exp 1.
Proof. pose proof (exp_ineq1 1 ltac:(lra)). lra. Qed.

Lemma default_n_local_trials_1 : default_n_local_trials 1 = 2%nat.
Proof.
  unfold default_n_local_trials.
  replace (INR 1) with 1 by reflexivity.
  rewrite ln_1. replace 0 with (INR 0) by reflexivity.
  now rewrite Int_part_INR.
Qed.

Lemma default_n_local_trials_2 : default_n_local_trials 2 = 2%nat.
Proof.
  unfold default_n_local_trials.
  assert (H : Int_part (ln (INR 2)) = 0%Z).
  { symmetry. apply Int_part_spec.
    replace (INR 2) with 2 by (simpl; lra).
    assert (H1 : ln 1 < ln 2) by (apply ln_increasing; lra).
    assert (H2 : ln 2 < ln (exp 1)).
    { apply ln_increasing; [lra | apply exp_1_gt_2]. }
    rewrite ln_1 in H1. rewrite ln_exp in H2. simpl IZR. lra. }
  rewrite H. reflexivity.
Qed.


(** ** Lists as arrays *)

Section ArrayFacts.

Context {A B C : Type}.

Lemma length_map2 (f : A -> B -> C) (l : list A) (m : list B) :
  length (map2 f l m) = Nat.min (length l) (length m).
Proof.
  revert m; induction l as [|a l IH]; intros [|b m]; simpl; auto.
Qed.

Lemma nth_map2 (f : A -> B -> C) (l : list A) (m : list B) (i : nat)
    (da : A) (db : B) (dc : C) :
  (i < length l)%nat -> (i < length m)%nat ->
  nth i (map2 f l m) dc = f (nth i l da) (nth i m db).
Proof.
  revert m i; induction l as [|a l IH]; intros [|b m] [|i]; simpl;
    intros Hl Hm; try lia; auto.
  apply IH; lia.
Qed.

Lemma nth_map_seq (f : nat -> A) (n i : nat) (d : A) :
  (i < n)%nat -> nth i (map f (seq 0 n)) d = f i.
Proof.
  intros Hi.
  rewrite (nth_indep _ d (f 0%nat)) by (rewrite length_map, length_seq; lia).
  rewrite map_nth, seq_nth by lia. reflexivity.
Qed.

Lemma nth_map_in (f : A -> B) (l : list A) (i : nat) (da : A) (db : B) :
  (i < length l)%nat -> nth i (map f l) db = f (nth i l da).
Proof.
  intros Hi.
  rewrite (nth_indep _ db (f da)) by (rewrite length_map; lia).
  apply map_nth.
Qed.

End ArrayFacts.

Lemma nth_set_item (a : list R) (i j : nat) (v : R) :
  (i < length a)%nat ->
  nth j (set_item a i v) 0 = if (i =? j)%nat then v else nth j a 0.
Proof.
  revert i j; induction a as [|x a IH]; intros [|i] [|j]; simpl; intros Hi;
    try lia; auto.
  apply IH; lia.
Qed.

Lemma length_set_item (a : list R) (i : nat) (v : R) :
  length (set_item a i v) = length a.
Proof.
  revert i; induction a as [|x a IH]; intros [|i]; simpl; auto.
Qed.

(** ** Nearest-centroid search *)

Lemma argmin_from_spec (l full : list R) (best : nat) (bestv : R) (i : nat) :
  (i + length l = length full)%nat ->
  (forall j, (j < length l)%nat -> nth (i + j) full 0 = nth j l 0) ->
  (best < i)%nat ->
  nth best full 0 = bestv ->
  (forall j, (j < i)%nat -> bestv <= nth j full 0) ->
  (argmin_from best bestv i l < length full)%nat /\
  forall j, (j < length full)%nat ->
       nth (argmin_from best bestv i l) full 0 <= nth j full 0.
Proof.
  revert best bestv i.
  induction l as [|d l IH]; intros best bestv i Hlen Hnth Hbest Hv Hmin; simpl in *.
  - split; [lia|]. intros j Hj. rewrite Hv. apply Hmin. lia.
  - assert (Hd : nth i full 0 = d).
    { specialize (Hnth 0%nat). rewrite Nat.add_0_r in Hnth. apply Hnth. lia. }
    assert (Hshift : forall j, (j < length l)%nat -> nth (S i + j) full 0 = nth j l 0).
    { intros j Hj. specialize (Hnth (S j)). simpl in Hnth.
      rewrite <- Hnth by lia. f_equal. lia. }
    destruct (Rlt_dec d bestv) as [Hlt|Hge].
    + apply IH; auto; try lia.
      intros j Hj. destruct (Nat.eq_dec j i) as [->|Hne].
      * rewrite Hd. lra.
      * specialize (Hmin j ltac:(lia)). lra.
    + apply IH; auto; try lia.
      intros j Hj. destruct (Nat.eq_dec j i) as [->|Hne].
      * rewrite Hd. lra.
      * apply Hmin. lia.
Qed.

Lemma argmin_first_spec (d : R) (ds : list R) :
  (argmin_from 0%nat d 1%nat ds < length (d :: ds))%nat /\
  forall j, (j < length (d :: ds))%nat ->
       nth (argmin_from 0%nat d 1%nat ds) (d :: ds) 0 <= nth j (d :: ds) 0.
Proof.
  apply argmin_from_spec; simpl; auto; try lia.
  intros j Hj. assert (j = 0%nat) as -> by lia. simpl. lra.
Qed.

(** On a non-empty index the search returns a position of the table, and no
    centroid is strictly nearer than the one at that position. *)
Lemma search1_spec (centroids : matrix) (q : vec) :
  centroids <> [] ->
  exists w : nat,
    search1 centroids q = Z.of_nat w /\ (w < length centroids)%nat /\
    forall c, In c centroids -> sqdist q (nth w centroids []) <= sqdist q c.
Proof.
  intros Hne. unfold search1.
  destruct centroids as [|c0 cs]; [congruence|]. cbn [map].
  destruct (argmin_first_spec (sqdist q c0) (map (sqdist q) cs)) as [Hlt Hmin].
  exists (argmin_from 0%nat (sqdist q c0) 1%nat (map (sqdist q) cs)).
  split; [reflexivity|]. split.
  - simpl in Hlt |- *. rewrite length_map in Hlt. exact Hlt.
  - intros c Hc. apply In_nth with (d := []) in Hc. destruct Hc as [j [Hj <-]].
    change (sqdist q c0 :: map (sqdist q) cs) with (map (sqdist q) (c0 :: cs)) in Hmin, Hlt.
    rewrite length_map in Hmin, Hlt.
    specialize (Hmin j Hj).
    rewrite (nth_map_in (sqdist q) _ _ [] 0 Hlt) in Hmin.
    rewrite (nth_map_in (sqdist q) _ _ [] 0 Hj) in Hmin.
    exact Hmin.
Qed.

Lemma search1_range (centroids : matrix) (q : vec) :
  centroids <> [] ->
  (0 <= search1 centroids q < Z.of_nat (length centroids))%Z.
Proof.
  intros Hne. destruct (search1_spec centroids q Hne) as [w [-> [Hw _]]]. lia.
Qed.

(** ** What a successful run looks like *)

Ltac bind_inv H :=
  let a := fresh "a" in
  let Ha := fresh "Hcall" in
  apply bind_Ok_inv in H; destruct H as [a [Ha H]].

Section FitFacts.

Context {B : Backend}.

Lemma getitem_Ok_nonempty {A : Type} (l : list A) (i : nat) (a : A) :
  getitem l i = Ok a -> l <> [].
Proof.
  unfold getitem. destruct l; [destruct i; discriminate | discriminate].
Qed.

Lemma fill_n_local_trials_fields (self : KMeans) :
  km_n_clusters (fill_n_local_trials self) = km_n_clusters self /\
  km_n_iter (fill_n_local_trials self) = km_n_iter self /\
  km_random_state (fill_n_local_trials self) = km_random_state self /\
  km_n_local_trials (fill_n_local_trials self) = Some (the_n_local_trials self).
Proof.
  unfold fill_n_local_trials, the_n_local_trials.
  destruct (km_n_local_trials self) eqn:E; simpl; auto.
Qed.

Lemma init_centroids_inv (os : RngState) (self self' : KMeans) (X init : matrix) :
  _init_centroids os self X = Ok (self', init) ->
  X <> [] /\ km_n_clusters self <> 0%nat /\ self' = fill_n_local_trials self.
Proof.
  unfold _init_centroids. intros H.
  bind_inv H. destruct a as [i0 rng].
  bind_inv H. apply getitem_Ok_nonempty in Hcall0.
  destruct (km_n_clusters self =? 0)%nat eqn:Ek; [discriminate|].
  apply Nat.eqb_neq in Ek.
  bind_inv H. injection H as <- _. auto.
Qed.

Lemma KMeans_fit_inv (os : RngState) (self km : KMeans) (X : matrix) :
  KMeans_fit os self X = Ok km ->
  X <> [] /\ km_n_clusters self <> 0%nat /\
  exists centroids,
    length centroids = km_n_clusters self /\
    km = mkKMeans (km_n_clusters self) (km_n_iter self)
           (Some (the_n_local_trials self)) (km_random_state self)
           (Some centroids) (Some (map (search1 centroids) X)).
Proof.
  unfold KMeans_fit. intros H.
  bind_inv H. destruct a as [self' init].
  apply init_centroids_inv in Hcall. destruct Hcall as [HX [Hk ->]].
  bind_inv H. rename a into centroids.
  destruct (fill_n_local_trials_fields self) as [E1 [E2 [E3 E4]]].
  rewrite E1, E2, E3, E4 in H.
  destruct (length centroids =? km_n_clusters self)%nat eqn:El; [|discriminate].
  apply Nat.eqb_eq in El. injection H as <-.
  repeat split; auto. exists centroids. auto.
Qed.

Lemma fit_inv (os1 os2 : RngState) (self sb : SpectralBridges) (X : matrix) :
  fit os1 os2 self X = Ok sb ->
  exists (km : KMeans) (centers : matrix) (eigvals : list R) (slabels : list Z),
    KMeans_fit os1
      (KMeans_init (n_nodes self) (n_iter self) (n_local_trials self)
         (random_state self)) X = Ok km /\
    km_cluster_centers_ km = Some centers /\
    length centers = n_nodes self /\
    n_nodes self <> 0%nat /\ n_clusters self <> 0%nat /\
    length slabels = length centers /\
    Forall (fun l => (0 <= l < Z.of_nat (n_clusters self))%Z) slabels /\
    length eigvals = n_nodes self /\
    sb = mkSpectralBridges (n_clusters self) (n_nodes self) (M self)
           (n_iter self) (n_local_trials self) (random_state self)
           (Some (group_centers (n_clusters self) centers slabels))
           (Some eigvals).
Proof.
  unfold fit. intros H.
  bind_inv H. rename a into km. pose proof Hcall as Hkm.
  apply KMeans_fit_inv in Hcall. destruct Hcall as [HX [Hn [centers [Hlen ->]]]].
  cbn [km_cluster_centers_ km_labels_ KMeans_init km_n_clusters km_n_iter
       km_random_state] in *.
  bind_inv H. rename a into sc.
  unfold SpectralClustering_fit in Hcall.
  bind_inv Hcall. destruct a as [eigvals eigvecs].
  apply eigh_shape in Hcall0.
  bind_inv Hcall. rename a into km2.
  apply KMeans_fit_inv in Hcall1.
  destruct Hcall1 as [HE [Hk [scent [Hslen ->]]]].
  cbn [km_cluster_centers_ km_labels_ KMeans_init km_n_clusters km_n_iter
       km_random_state SpectralClustering_init sc_n_clusters sc_random_state]
    in *.
  injection Hcall as <-.
  cbn [sc_labels_ sc_eigvals_] in H.
  destruct (n_clusters self =? 0)%nat eqn:Ek.
  { apply Nat.eqb_eq in Ek. congruence. }
  cbn [orb] in H.
  destruct (length _ =? length centers)%nat eqn:El; [|discriminate].
  apply Nat.eqb_eq in El.
  injection H as <-.
  exists (mkKMeans (n_nodes self) (n_iter self)
            (Some (the_n_local_trials
                     (KMeans_init (n_nodes self) (n_iter self)
                        (n_local_trials self) (random_state self))))
            (random_state self) (Some centers)
            (Some (map (search1 centers) X))).
  exists centers, eigvals,
    (map (search1 scent) (embedding (n_clusters self) eigvecs)).
  repeat split; auto.
  - apply Forall_forall. intros l Hl. apply in_map_iff in Hl.
    destruct Hl as [q [<- _]]. rewrite <- Hslen.
    apply search1_range. intros ->. simpl in Hslen. congruence.
  - unfold embedding in El. rewrite !length_map in El. congruence.
Qed.

End FitFacts.

(** ** Boolean masks and groups *)

Lemma mask_select_map {A A' : Type} (f : A -> A') (mask : list Z) (i : Z)
    (l : list A) :
  mask_select mask i (map f l) = map f (mask_select mask i l).
Proof.
  unfold mask_select. revert l.
  induction mask as [|m mask IH]; intros [|a l]; simpl; auto.
  destruct (m =? i)%Z; simpl; now rewrite IH.
Qed.

Section MaskFacts.

Context {A : Type}.

Lemma in_combine_seq (mask : list Z) (s n : nat) (m : Z) (p : nat) :
  length mask = n ->
  In (m, p) (combine mask (seq s n)) <->
  (s <= p)%nat /\ nth_error mask (p - s) = Some m.
Proof.
  revert s n; induction mask as [|m0 mask IH]; intros s [|n] Hlen;
    simpl in Hlen; try discriminate.
  - simpl. split; [tauto|]. intros [_ H]. destruct (p - s)%nat; discriminate.
  - cbn [seq combine In]. rewrite IH by lia. split.
    + intros [H|[Hle H]].
      * injection H as -> ->. rewrite Nat.sub_diag. simpl. auto.
      * split; [lia|]. replace (p - s)%nat with (S (p - S s)) by lia. exact H.
    + intros [Hle H]. destruct (Nat.eq_dec p s) as [->|Hne].
      * rewrite Nat.sub_diag in H. simpl in H. injection H as ->. auto.
      * right. split; [lia|].
        replace (p - s)%nat with (S (p - S s)) in H by lia. exact H.
Qed.

Lemma in_mask_select (mask : list Z) (i : Z) (l : list A) (x : A) :
  In x (mask_select mask i l) <-> In (i, x) (combine mask l).
Proof.
  unfold mask_select. rewrite in_map_iff. split.
  - intros [[m y] [Hy Hin]]. simpl in Hy. subst y.
    apply filter_In in Hin. destruct Hin as [Hin Hm]. simpl in Hm.
    apply Z.eqb_eq in Hm. now subst m.
  - intros Hin. exists (i, x). split; [reflexivity|].
    apply filter_In. split; [exact Hin|]. simpl. apply Z.eqb_refl.
Qed.

Lemma NoDup_mask_select (mask : list Z) (i : Z) (l : list A) :
  NoDup l -> NoDup (mask_select mask i l).
Proof.
  revert l; induction mask as [|m mask IH]; intros [|a l] Hnd;
    try (unfold mask_select; simpl; constructor).
  inversion Hnd as [|? ? Hnotin Hnd']; subst.
  unfold mask_select. cbn [combine filter fst].
  destruct (m =? i)%Z.
  - cbn [map snd]. constructor; [|apply IH; assumption].
    intros Hin. change (In a (mask_select mask i l)) in Hin.
    apply in_mask_select in Hin. apply in_combine_r in Hin. contradiction.
  - apply IH; assumption.
Qed.

Lemma map_nth_seq (l : list A) (d : A) :
  map (fun p => nth p l d) (seq 0 (length l)) = l.
Proof.
  induction l as [|a l IH]; simpl; [reflexivity|].
  f_equal. rewrite <- seq_shift, map_map. simpl. exact IH.
Qed.

(** Rows selected from an array are the rows at the selected positions. *)
Lemma mask_select_positions (mask : list Z) (i : Z) (l : list A) (d : A) :
  length mask = length l ->
  mask_select mask i l =
  map (fun p => nth p l d) (mask_select mask i (seq 0 (length mask))).
Proof.
  intros Hlen. rewrite <- mask_select_map. rewrite Hlen.
  now rewrite map_nth_seq.
Qed.

Lemma filter_split_perm (f g h : A -> bool) (l : list A) :
  (forall x, In x l -> h x = f x || g x) ->
  (forall x, In x l -> f x && g x = false) ->
  Permutation (filter f l ++ filter g l) (filter h l).
Proof.
  induction l as [|a l IH]; intros Hh Hd; simpl; [constructor|].
  assert (IH' : Permutation (filter f l ++ filter g l) (filter h l)).
  { apply IH; intros x Hx; [apply Hh | apply Hd]; now right. }
  specialize (Hh a (or_introl eq_refl)). specialize (Hd a (or_introl eq_refl)).
  rewrite Hh. destruct (f a), (g a); simpl in *; try discriminate.
  - now constructor.
  - rewrite <- Permutation_middle. now constructor.
  - exact IH'.
Qed.

End MaskFacts.

Lemma map_snd_combine_eq {A A' : Type} (l : list A) (m : list A') :
  length l = length m -> map snd (combine l m) = m.
Proof.
  revert m; induction l as [|a l IH]; intros [|b m] Hlen; simpl in *;
    try discriminate; auto.
  f_equal. apply IH. lia.
Qed.

Ltac zbool :=
  repeat match goal with
         | |- context [(?a <? ?b)%Z] => destruct (Z.ltb_spec a b)
         | |- context [(?a <=? ?b)%Z] => destruct (Z.leb_spec a b)
         | |- context [(?a =? ?b)%Z] => destruct (Z.eqb_spec a b)
         end; simpl; try reflexivity; try lia.

Lemma groups_below_perm {A : Type} (k : nat) (mask : list Z) (l : list A) :
  Permutation
    (concat (map (fun i => mask_select mask (Z.of_nat i) l) (seq 0 k)))
    (map snd (filter (fun p => (fst p <? Z.of_nat k)%Z && (0 <=? fst p)%Z)
                (combine mask l))).
Proof.
  induction k as [|k IH].
  - simpl. erewrite filter_ext; [rewrite filter_false; constructor|].
    intros [m x]. simpl. zbool.
  - rewrite seq_S, map_app, concat_app. simpl. rewrite app_nil_r.
    rewrite IH. unfold mask_select. rewrite <- map_app.
    apply Permutation_map. apply filter_split_perm.
    + intros [m x] _. cbn [fst]. zbool.
    + intros [m x] _. cbn [fst]. zbool.
Qed.

(** Grouping rows by labels that all lie in [[0, k)] rearranges the rows. *)
Lemma group_centers_perm (k : nat) (centers : matrix) (labels : list Z) :
  length labels = length centers ->
  Forall (fun l => (0 <= l < Z.of_nat k)%Z) labels ->
  Permutation (concat (group_centers k centers labels)) centers.
Proof.
  intros Hlen Hall. unfold group_centers. rewrite groups_below_perm.
  rewrite forallb_filter_id.
  - rewrite map_snd_combine_eq; [reflexivity | exact Hlen].
  - apply forallb_forall. intros [m x] Hin. cbn [fst].
    apply in_combine_l in Hin. rewrite Forall_forall in Hall.
    specialize (Hall m Hin). zbool.
Qed.

Lemma in_node_ids (labels : list Z) (g p : nat) :
  In p (node_ids labels g) <-> nth_error labels p = Some (Z.of_nat g).
Proof.
  unfold node_ids. rewrite in_mask_select.
  rewrite in_combine_seq by reflexivity. rewrite Nat.sub_0_r.
  split; [tauto | split; [lia | assumption]].
Qed.

Lemma partitions_rows_group_centers (k : nat) (centers : matrix) (labels : list Z) :
  length labels = length centers ->
  Forall (fun l => (0 <= l < Z.of_nat k)%Z) labels ->
  partitions_rows k centers (group_centers k centers labels).
Proof.
  intros Hlen Hall. split.
  { unfold group_centers. now rewrite length_map, length_seq. }
  assert (Hgroup : forall g, (g < k)%nat ->
            nth g (group_centers k centers labels) [] =
            map (fun p => nth p centers []) (node_ids labels g)).
  { intros g Hg. unfold group_centers. rewrite nth_map_seq by exact Hg.
    apply mask_select_positions. exact Hlen. }
  exists labels. split; [exact Hlen|]. split; [|split; [|split; [|split]]].
  - exact Hgroup.
  - intros g. apply NoDup_mask_select, seq_NoDup.
  - intros p Hp. rewrite <- Hlen in Hp.
    destruct (nth_error labels p) as [l|] eqn:El.
    2:{ apply nth_error_None in El. lia. }
    rewrite Forall_forall in Hall.
    specialize (Hall l (nth_error_In _ _ El)).
    exists (Z.to_nat l). split; [lia|].
    intros g'. rewrite in_node_ids, El. split.
    + intros H. injection H as ->. now rewrite Nat2Z.id.
    + intros ->. f_equal. lia.
  - intros g Hg. rewrite (Hgroup g Hg). split.
    + intros Hnil Hin. apply In_nth_error in Hin. destruct Hin as [p Hp].
      apply in_node_ids in Hp. apply map_eq_nil in Hnil.
      rewrite Hnil in Hp. exact Hp.
    + intros Hnot. destruct (node_ids labels g) as [|p ids] eqn:E;
        [reflexivity|].
      exfalso. apply Hnot.
      assert (Hp : In p (node_ids labels g)) by (rewrite E; now left).
      apply in_node_ids in Hp. eapply nth_error_In. exact Hp.
  - apply group_centers_perm; assumption.
Qed.

(** ** The groups of a fitted model (lines 260-263) *)



(** ** Prediction (claim C2) *)

Lemma cumsum_from_ge (acc : nat) (l : list nat) (c : nat) :
  In c (cumsum_from acc l) -> (acc <= c)%nat.
Proof.
  revert acc; induction l as [|a l IH]; intros acc; simpl; [tauto|].
  intros [<-|Hin]; [lia|]. apply IH in Hin. lia.
Qed.

Lemma searchsorted_right_above (a : list nat) (v : Z) :
  (forall c, In c a -> (v < Z.of_nat c)%Z) -> searchsorted_right a v = 0%nat.
Proof.
  unfold searchsorted_right. induction a as [|c a IH]; intros Hall; simpl; auto.
  destruct (Z.leb_spec (Z.of_nat c) v) as [Hle|Hgt].
  - specialize (Hall c (or_introl eq_refl)). lia.
  - apply IH. intros c' Hc'. apply Hall. now right.
Qed.

Lemma searchsorted_right_cons (c : nat) (a : list nat) (v : Z) :
  searchsorted_right (c :: a) v =
  if (Z.of_nat c <=? v)%Z then S (searchsorted_right a v)
  else searchsorted_right a v.
Proof.
  unfold searchsorted_right. cbn [filter].
  now destruct (Z.of_nat c <=? v)%Z.
Qed.

(** The cumulative-offset lookup finds the group that holds a row of the
    stacked table. *)
Lemma searchsorted_owner (groups : list matrix) (acc w : nat) :
  (w < length (concat groups))%nat ->
  owns groups
    (searchsorted_right (cumsum_from acc (map (@length (list R)) groups))
       (Z.of_nat (acc + w)))
    w.
Proof.
  revert acc w; induction groups as [|grp rest IH]; intros acc w Hw.
  { simpl in Hw. lia. }
  cbn [concat] in Hw. rewrite length_app in Hw.
  cbn [map cumsum_from]. rewrite searchsorted_right_cons.
  destruct (Z.leb_spec (Z.of_nat (acc + length grp)) (Z.of_nat (acc + w)))
    as [Hle|Hgt].
  - assert (Hw' : (w - length grp < length (concat rest))%nat) by lia.
    specialize (IH (acc + length grp)%nat (w - length grp)%nat Hw').
    replace (acc + length grp + (w - length grp))%nat with (acc + w)%nat in IH
      by lia.
    set (g := searchsorted_right _ _) in *.
    destruct IH as [Hg [Hoff Hnth]].
    unfold owns, offset in *. cbn [firstn concat nth length].
    rewrite length_app. repeat split; try lia.
    rewrite app_nth2 by lia.
    rewrite <- Hnth. f_equal. lia.
  - rewrite searchsorted_right_above.
    + unfold owns, offset. cbn [firstn concat nth length].
      repeat split; try lia.
      rewrite Nat.sub_0_r. now rewrite app_nth1 by lia.
    + intros c Hc. apply cumsum_from_ge in Hc. lia.
Qed.

Lemma owns_of_winner (groups : list matrix) (w : nat) :
  (w < length (concat groups))%nat ->
  owns groups
    (searchsorted_right (cumsum (map (@length (list R)) groups)) (Z.of_nat w)) w.
Proof.
  intros Hw. exact (searchsorted_owner groups 0 w Hw).
Qed.

Lemma predict_fitted (self : SpectralBridges) (groups : list matrix) (d : nat)
    (x : matrix) :
  cluster_centers_ self = Some groups ->
  groups <> [] ->
  Forall (fun c => length c = d) (concat groups) ->
  predict self d x =
  Ok (map (fun q =>
             searchsorted_right (cumsum (map (@length (list R)) groups))
               (search1 (concat groups) q)) x).
Proof.
  intros Hg Hne Hd. unfold predict. rewrite Hg.
  destruct groups as [|g0 rest]; [congruence|].
  rewrite (proj2 (forallb_forall _ _)).
  - now rewrite map_map.
  - intros c Hc. rewrite Forall_forall in Hd. apply Nat.eqb_eq. now apply Hd.
Qed.

(** C2: on a fitted model, [predict] applied to an array [x] of width [d]
    (the width of the stored centroids) returns one integer per row of [x],
    each in [[0, n_clusters)]; the integer for a row [q] is the group that
    owns the row [w] of the stacked centroid table found by the nearest
    neighbour search, that is, a row no centroid is nearer to [q] than; the
    group is the one the cumulative group sizes assign to [w]. *)
Theorem predict_nearest_group {B : Backend} (os1 os2 : RngState)
    (self sb : SpectralBridges) (X : matrix) (d : nat) (x : matrix) :
  fit os1 os2 self X = Ok sb ->
  (forall groups, cluster_centers_ sb = Some groups ->
     Forall (fun c => length c = d) (concat groups)) ->
  exists (groups : list matrix) (labels : list nat),
    cluster_centers_ sb = Some groups /\
    predict sb d x = Ok labels /\
    length labels = length x /\
    Forall (fun g => (g < n_clusters sb)%nat) labels /\
    nearest_group_labels groups x labels.
Proof.
  intros Hfit Hdim. apply fit_inv in Hfit.
  destruct Hfit as (km & centers & eigvals & slabels & Hkm & Hc & Hlen & Hn & Hk
                    & Hsl & Hrange & Hev & ->).
  cbn [cluster_centers_ n_clusters] in *.
  set (groups := group_centers (n_clusters self) centers slabels) in *.
  assert (Hgl : length groups = n_clusters self).
  { unfold groups, group_centers. now rewrite length_map, length_seq. }
  assert (Hflat : length (concat groups) = n_nodes self).
  { rewrite <- Hlen. apply Permutation_length.
    apply group_centers_perm; assumption. }
  assert (Hne : concat groups <> []).
  { intros E. rewrite E in Hflat. simpl in Hflat. congruence. }
  assert (Hgne : groups <> []).
  { intros E. rewrite E in Hgl. simpl in Hgl. congruence. }
  pose proof (Hdim groups eq_refl) as Hd.
  exists groups. eexists. split; [reflexivity|].
  split; [apply predict_fitted; [reflexivity | assumption | assumption]|].
  split; [now rewrite length_map|]. split.
  - apply Forall_forall. intros g Hg. apply in_map_iff in Hg.
    destruct Hg as [q [<- _]].
    destruct (search1_spec (concat groups) q Hne) as [w [-> [Hw _]]].
    destruct (owns_of_winner groups w Hw) as [Hlt _]. lia.
  - intros i q Hi.
    destruct (search1_spec (concat groups) q Hne) as [w [Hs [Hw Hmin]]].
    exists w. eexists. split; [|split; [exact Hs|split; [exact Hw|split;
      [exact Hmin|split; [reflexivity|apply owns_of_winner; exact Hw]]]]].
    rewrite nth_error_map, Hi. cbn [option_map]. now rewrite Hs.
Qed.

Lemma predict_nearest_group_witness :
  exists sb,
    fit (B := Scenario.seeds_backend) 0%nat 0%nat
      Scenario.coarse Scenario.three_points = Ok sb /\
    (forall groups, cluster_centers_ sb = Some groups ->
       Forall (fun c => length c = 1%nat) (concat groups)) /\
    exists (groups : list matrix) (labels : list nat),
      cluster_centers_ sb = Some groups /\
      predict sb 1 [[2]; [-1]] = Ok labels /\
      length labels = 2%nat /\
      Forall (fun g => (g < n_clusters sb)%nat) labels /\
      nearest_group_labels groups [[2]; [-1]] labels.
Proof.
  eexists. split; [model_eval; reflexivity|].
  assert (Hd : forall groups : list matrix,
             Some [[[0]; [3]]] = Some groups ->
             Forall (fun c : list R => length c = 1%nat) (concat groups)).
  { intros groups H. injection H as <-. repeat constructor. }
  split; [exact Hd|].
  apply (predict_nearest_group (B := Scenario.seeds_backend) 0%nat 0%nat
           Scenario.coarse _ Scenario.three_points 1 [[2]; [-1]]).
  - model_eval. reflexivity.
  - exact Hd.
Defined.

(** ** The bridge affinity (claims C3, C4 and C5) *)

Section AffinityFacts.

Variable n : nat.
Variable centers : matrix.
Hypothesis Hcenters : length centers = n.

Lemma length_affinity_row (Xc_i : matrix) (i : nat) :
  length (affinity_row centers Xc_i i) = n.
Proof.
  unfold affinity_row, sum_axis0.
  now rewrite length_map, length_seq, length_map.
Qed.

Lemma nth_affinity_row (Xc_i : matrix) (i j : nat) :
  (i < n)%nat -> (j < n)%nat ->
  nth j (affinity_row centers Xc_i i) 0 =
  let segment := vsub (nth j centers []) (nth i centers []) in
  let dist := if (i =? j)%nat then 1 else dot segment segment in
  sum (map (fun r => (Rmax 0 (dot r segment / dist)) ^ 2) Xc_i).
Proof.
  intros Hi Hj. unfold affinity_row, sum_axis0.
  rewrite length_map, Hcenters. rewrite nth_map_seq by exact Hj.
  set (segments := map (fun c => vsub c (nth i centers [])) centers).
  set (dists := set_item (map (fun s => dot s s) segments) i 1).
  unfold column. rewrite !map_map. cbv zeta. f_equal.
  apply map_ext. intros r.
  assert (Hls : length segments = n).
  { unfold segments. now rewrite length_map. }
  assert (Hld : length dists = n).
  { unfold dists. now rewrite length_set_item, length_map. }
  rewrite (nth_map_in (fun p => p * p) _ _ 0 0)
    by (rewrite length_map2, Hls, Hld; lia).
  rewrite (nth_map2 _ _ _ _ [] 0 0) by lia.
  assert (Hs : nth j segments [] = vsub (nth j centers []) (nth i centers [])).
  { unfold segments.
    now rewrite (nth_map_in (fun c => vsub c (nth i centers [])) _ _ [] [])
      by lia. }
  assert (Hdj : nth j dists 0 =
                if (i =? j)%nat then 1
                else dot (nth j segments []) (nth j segments [])).
  { unfold dists. rewrite nth_set_item by (rewrite length_map; lia).
    destruct (i =? j)%nat; [reflexivity|].
    now rewrite (nth_map_in (fun s => dot s s) _ _ [] 0) by lia. }
  rewrite Hdj, Hs. simpl. ring.
Qed.

Variable Xc : list matrix.
Hypothesis HXc : length Xc = n.

Lemma length_raw_affinity : length (raw_affinity n centers Xc) = n.
Proof. unfold raw_affinity. now rewrite length_map, length_seq. Qed.

Lemma entry_raw_affinity (i j : nat) :
  (i < n)%nat -> (j < n)%nat ->
  entry (raw_affinity n centers Xc) i j = spec_raw centers Xc i j.
Proof.
  intros Hi Hj. unfold entry, raw_affinity.
  rewrite nth_map_seq by exact Hi.
  rewrite nth_affinity_row by assumption. reflexivity.
Qed.

Lemma length_row_raw_affinity (i : nat) :
  (i < n)%nat -> length (nth i (raw_affinity n centers Xc) []) = n.
Proof.
  intros Hi. unfold raw_affinity. rewrite nth_map_seq by exact Hi.
  apply length_affinity_row.
Qed.

End AffinityFacts.

Lemma entry_transpose (n : nat) (a : matrix) (i j : nat) :
  (i < n)%nat -> (j < length a)%nat ->
  entry (transpose n a) i j = entry a j i.
Proof.
  intros Hi Hj. unfold entry, transpose.
  rewrite nth_map_seq by exact Hi. unfold column.
  now rewrite (nth_map_in (fun row => nth i row 0) _ _ [] 0) by exact Hj.
Qed.

Lemma length_row_transpose (n : nat) (a : matrix) (i : nat) :
  (i < n)%nat -> length (nth i (transpose n a) []) = length a.
Proof.
  intros Hi. unfold transpose. rewrite nth_map_seq by exact Hi.
  unfold column. now rewrite length_map.
Qed.

Lemma entry_pair_counts (counts : list nat) (i j : nat) :
  (i < length counts)%nat -> (j < length counts)%nat ->
  nth j (nth i (pair_counts counts) []) 0%nat =
  (nth j counts 0 + nth i counts 0)%nat.
Proof.
  intros Hi Hj. unfold pair_counts.
  rewrite (nth_map_in (fun ci => map (fun cj => (cj + ci)%nat) counts)
             _ _ 0%nat []) by exact Hi.
  now rewrite (nth_map_in (fun cj => (cj + nth i counts 0)%nat) _ _ 0%nat 0%nat)
    by exact Hj.
Qed.

Lemma length_row_pair_counts (counts : list nat) (i : nat) :
  (i < length counts)%nat ->
  length (nth i (pair_counts counts) []) = length counts.
Proof.
  intros Hi. unfold pair_counts.
  rewrite (nth_map_in (fun ci => map (fun cj => (cj + ci)%nat) counts)
             _ _ 0%nat []) by exact Hi.
  now rewrite length_map.
Qed.

Section ElementwiseFacts.

Context {X Y Z : Type}.
Variable f : X -> Y -> Z.

Lemma length_row_map2 (a : list (list X)) (b : list (list Y)) (i : nat) :
  (i < length a)%nat -> (i < length b)%nat ->
  length (nth i (map2 (map2 f) a b) []) =
  Nat.min (length (nth i a [])) (length (nth i b [])).
Proof.
  intros Ha Hb. rewrite (nth_map2 (map2 f) a b i [] [] []) by assumption.
  apply length_map2.
Qed.

Lemma entry_map2 (a : list (list X)) (b : list (list Y)) (i j : nat)
    (dx : X) (dy : Y) (dz : Z) :
  (i < length a)%nat -> (i < length b)%nat ->
  (j < length (nth i a []))%nat -> (j < length (nth i b []))%nat ->
  nth j (nth i (map2 (map2 f) a b) []) dz =
  f (nth j (nth i a []) dx) (nth j (nth i b []) dy).
Proof.
  intros Ha Hb Hja Hjb.
  rewrite (nth_map2 (map2 f) a b i [] [] []) by assumption.
  now apply nth_map2.
Qed.

End ElementwiseFacts.

Section SymmetrizeFacts.

Variable n : nat.
Variable a : matrix.
Variable counts : list (list nat).
Hypothesis Ha : length a = n.
Hypothesis Hrows : forall i, (i < n)%nat -> length (nth i a []) = n.
Hypothesis Hc : length counts = n.
Hypothesis Hcrows : forall i, (i < n)%nat -> length (nth i counts []) = n.

Lemma length_transpose : length (transpose n a) = n.
Proof. unfold transpose. now rewrite length_map, length_seq. Qed.

Lemma length_summed : length (madd a (transpose n a)) = n.
Proof.
  unfold madd. rewrite length_map2, Ha, length_transpose. lia.
Qed.

Lemma length_row_summed (i : nat) :
  (i < n)%nat -> length (nth i (madd a (transpose n a)) []) = n.
Proof.
  intros Hi. unfold madd.
  rewrite length_row_map2 by (rewrite ?length_transpose; lia).
  rewrite Hrows, length_row_transpose by exact Hi. lia.
Qed.

Lemma entry_summed (i j : nat) :
  (i < n)%nat -> (j < n)%nat -> entry (madd a (transpose n a)) i j = entry a i j + entry a j i.
Proof.
  intros Hi Hj. unfold entry at 1. unfold madd.
  rewrite (entry_map2 Rplus a (transpose n a) i j 0 0 0).
  - fold (entry a i j). fold (entry (transpose n a) i j).
    now rewrite entry_transpose by lia.
  - lia.
  - rewrite length_transpose. exact Hi.
  - rewrite Hrows; assumption.
  - rewrite length_row_transpose by exact Hi. lia.
Qed.

Lemma length_averaged : length (mdiv_counts (madd a (transpose n a)) counts) = n.
Proof.
  unfold mdiv_counts. rewrite length_map2, length_summed, Hc. lia.
Qed.

Lemma length_row_averaged (i : nat) :
  (i < n)%nat -> length (nth i (mdiv_counts (madd a (transpose n a)) counts) []) = n.
Proof.
  intros Hi. unfold mdiv_counts.
  rewrite length_row_map2 by (rewrite ?length_summed; lia).
  rewrite length_row_summed, Hcrows by exact Hi. lia.
Qed.

Lemma length_symmetrize : length (symmetrize n a counts) = n.
Proof.
  unfold symmetrize. rewrite length_map. exact length_averaged.
Qed.

Lemma length_row_symmetrize (i : nat) :
  (i < n)%nat -> length (nth i (symmetrize n a counts) []) = n.
Proof.
  intros Hi. unfold symmetrize.
  rewrite (nth_map_in (map sqrt) _ _ [] []) by (rewrite length_averaged; exact Hi).
  rewrite length_map. now apply length_row_averaged.
Qed.

Lemma entry_symmetrize (i j : nat) :
  (i < n)%nat -> (j < n)%nat ->
  entry (symmetrize n a counts) i j =
  sqrt ((entry a i j + entry a j i) / INR (nth j (nth i counts []) 0%nat)).
Proof.
  intros Hi Hj. unfold entry at 1. unfold symmetrize.
  rewrite (nth_map_in (map sqrt) _ _ [] []) by (rewrite length_averaged; exact Hi).
  rewrite (nth_map_in sqrt _ _ 0 0) by (rewrite length_row_averaged; assumption).
  f_equal. unfold mdiv_counts.
  rewrite (entry_map2 (fun x k => x / INR k) (madd a (transpose n a)) counts i j 0 0%nat 0).
  - fold (entry (madd a (transpose n a)) i j). now rewrite entry_summed.
  - rewrite length_summed. exact Hi.
  - lia.
  - rewrite length_row_summed; assumption.
  - rewrite Hcrows; assumption.
Qed.

End SymmetrizeFacts.

Section PointwiseFacts.

Variable f : R -> R.
Variable a : matrix.

Lemma length_row_map_map (i : nat) :
  (i < length a)%nat ->
  length (nth i (map (map f) a) []) = length (nth i a []).
Proof.
  intros Hi. rewrite (nth_map_in (map f) _ _ [] []) by exact Hi.
  apply length_map.
Qed.

Lemma entry_map_map (i j : nat) :
  (i < length a)%nat -> (j < length (nth i a []))%nat ->
  entry (map (map f) a) i j = f (entry a i j).
Proof.
  intros Hi Hj. unfold entry.
  rewrite (nth_map_in (map f) _ _ [] []) by exact Hi.
  now rewrite (nth_map_in f _ _ 0 0) by exact Hj.
Qed.

End PointwiseFacts.

Section BridgeAffinityFacts.

Variable n : nat.
Variable X : matrix.
Variable labels : list Z.
Variable centers : matrix.
Hypothesis Hcenters : length centers = n.

Lemma length_X_centered : length (X_centered n X labels centers) = n.
Proof. unfold X_centered. now rewrite length_map, length_seq. Qed.

Lemma pair_counts_shape :
  length (pair_counts (map (@length (list R)) (X_centered n X labels centers))) = n /\
  forall i, (i < n)%nat ->
    length (nth i (pair_counts
                     (map (@length (list R)) (X_centered n X labels centers)))
              []) = n.
Proof.
  assert (Hl : length (map (@length (list R)) (X_centered n X labels centers)) = n).
  { now rewrite length_map, length_X_centered. }
  split.
  - unfold pair_counts. now rewrite length_map.
  - intros i Hi. rewrite length_row_pair_counts; lia.
Qed.

Lemma bridge_affinity_sym_shape :
  length (bridge_affinity_sym n X labels centers) = n /\
  forall i, (i < n)%nat ->
    length (nth i (bridge_affinity_sym n X labels centers) []) = n.
Proof.
  destruct pair_counts_shape as [Hc Hcr].
  unfold bridge_affinity_sym. split.
  - apply length_symmetrize; auto.
    apply length_raw_affinity.
  - intros i Hi. apply length_row_symmetrize; auto.
    + apply length_raw_affinity.
    + intros k Hk. now apply length_row_raw_affinity.
Qed.

Lemma entry_bridge_affinity_sym (i j : nat) :
  (i < n)%nat -> (j < n)%nat ->
  entry (bridge_affinity_sym n X labels centers) i j =
  spec_affinity centers (X_centered n X labels centers) i j.
Proof.
  intros Hi Hj. destruct pair_counts_shape as [Hc Hcr].
  unfold bridge_affinity_sym.
  rewrite (entry_symmetrize n) by
    (auto using length_raw_affinity;
     intros k Hk; now apply length_row_raw_affinity).
  rewrite !(entry_raw_affinity n) by auto using length_X_centered.
  rewrite entry_pair_counts by (rewrite length_map, length_X_centered; lia).
  rewrite !(nth_map_in (@length (list R)) _ _ [] 0%nat)
    by (rewrite length_X_centered; lia).
  unfold spec_affinity. cbv zeta. rewrite plus_INR.
  f_equal. f_equal. apply Rplus_comm.
Qed.

Lemma spec_affinity_sym (residuals : list matrix) (i j : nat) :
  spec_affinity centers residuals i j = spec_affinity centers residuals j i.
Proof.
  unfold spec_affinity. cbv zeta. f_equal. f_equal; apply Rplus_comm.
Qed.

Lemma bridge_affinity_shape (M : R) :
  length (bridge_affinity M n X labels centers) = n /\
  forall i, (i < n)%nat ->
    length (nth i (bridge_affinity M n X labels centers) []) = n.
Proof.
  destruct bridge_affinity_sym_shape as [Hl Hr].
  unfold bridge_affinity, rescale, recenter. split.
  - now rewrite !length_map.
  - intros i Hi.
    rewrite length_row_map_map by (rewrite length_map, Hl; exact Hi).
    rewrite length_row_map_map by (rewrite Hl; exact Hi).
    now apply Hr.
Qed.

Lemma entry_bridge_affinity (M : R) (i j : nat) :
  (i < n)%nat -> (j < n)%nat ->
  entry (bridge_affinity M n X labels centers) i j =
  rescale_value
    (contrast_gamma M (recenter (bridge_affinity_sym n X labels centers)))
    (entry (bridge_affinity_sym n X labels centers) i j
     - 0.5 * amax (bridge_affinity_sym n X labels centers)).
Proof.
  intros Hi Hj. destruct bridge_affinity_sym_shape as [Hl Hr].
  unfold bridge_affinity, rescale. cbv zeta.
  assert (Hl' : length (recenter (bridge_affinity_sym n X labels centers)) = n).
  { unfold recenter. now rewrite length_map. }
  assert (Hr' : length (nth i (recenter (bridge_affinity_sym n X labels centers)) []) = n).
  { unfold recenter. cbv zeta. rewrite length_row_map_map by lia. now apply Hr. }
  rewrite entry_map_map by lia.
  f_equal. unfold recenter. cbv zeta.
  rewrite entry_map_map by (rewrite ?Hr; lia). reflexivity.
Qed.

Lemma bridge_affinity_sym_symmetric (i j : nat) :
  (i < n)%nat -> (j < n)%nat ->
  entry (bridge_affinity_sym n X labels centers) i j =
  entry (bridge_affinity_sym n X labels centers) j i.
Proof.
  intros Hi Hj. rewrite !entry_bridge_affinity_sym by assumption.
  apply spec_affinity_sym.
Qed.

Lemma bridge_affinity_symmetric (M : R) (i j : nat) :
  (i < n)%nat -> (j < n)%nat ->
  entry (bridge_affinity M n X labels centers) i j =
  entry (bridge_affinity M n X labels centers) j i.
Proof.
  intros Hi Hj. rewrite !entry_bridge_affinity by assumption.
  now rewrite (bridge_affinity_sym_symmetric i j).
Qed.

End BridgeAffinityFacts.

Lemma bridge_affinity_positive (M : R) (n : nat) (X : matrix) (labels : list Z)
    (centers : matrix) :
  Forall (Forall (fun a => 0 < a)) (bridge_affinity M n X labels centers).
Proof.
  unfold bridge_affinity, rescale. cbv zeta.
  apply Forall_forall. intros row Hrow. apply in_map_iff in Hrow.
  destruct Hrow as [row' [<- _]].
  apply Forall_forall. intros a Ha. apply in_map_iff in Ha.
  destruct Ha as [a' [<- _]]. apply exp_pos.
Qed.

(** The first k-means of [fit] returns as many centroids as there are
    nodes. *)
Lemma node_centroids_length {B : Backend} (os : RngState)
    (self : SpectralBridges) (X : matrix) (km : KMeans) (centers : matrix) :
  KMeans_fit os
    (KMeans_init (n_nodes self) (n_iter self) (n_local_trials self)
       (random_state self)) X = Ok km ->
  km_cluster_centers_ km = Some centers ->
  length centers = n_nodes self.
Proof.
  intros Hkm Hc. apply KMeans_fit_inv in Hkm.
  destruct Hkm as [_ [_ [centroids [Hlen ->]]]].
  cbn in Hc, Hlen. injection Hc as <-. exact Hlen.
Qed.

(** C3: in every run of [fit], for every pair of nodes [(i, j)], the
    affinity built from the centroids and labels of the first k-means is,
    before the contrast rescale, the one the design document describes: with
    [segment = centroid_j - centroid_i] and [dist = ||segment||^2] ([1] when
    [i = j]), the member residuals of node [i] (the points labelled [i]
    minus the centroid of node [i]) contribute the square of their
    projection onto [segment] divided by [dist] and clipped at zero to
    [raw[i][j]], and the symmetrized entry is
    [sqrt((raw[i][j] + raw[j][i]) / (count_i + count_j))]. *)
Theorem bridge_affinity_sym_spec {B : Backend} (os : RngState)
    (self : SpectralBridges) (X : matrix) (km : KMeans) (centers : matrix)
    (labels : list Z) (i j : nat) :
  KMeans_fit os
    (KMeans_init (n_nodes self) (n_iter self) (n_local_trials self)
       (random_state self)) X = Ok km ->
  km_cluster_centers_ km = Some centers ->
  km_labels_ km = Some labels ->
  (i < n_nodes self)%nat -> (j < n_nodes self)%nat ->
  let residuals := X_centered (n_nodes self) X labels centers in
  nth i residuals [] =
    map (fun x => vsub x (nth i centers [])) (mask_select labels (Z.of_nat i) X) /\
  entry (raw_affinity (n_nodes self) centers residuals) i j =
    spec_raw centers residuals i j /\
  entry (bridge_affinity_sym (n_nodes self) X labels centers) i j =
    spec_affinity centers residuals i j.
Proof.
  intros Hkm Hc _ Hi Hj residuals.
  pose proof (node_centroids_length os self X km centers Hkm Hc) as Hlen.
  split; [|split].
  - unfold residuals, X_centered. now rewrite nth_map_seq by exact Hi.
  - apply entry_raw_affinity; auto using length_X_centered.
  - now apply entry_bridge_affinity_sym.
Qed.

Lemma bridge_affinity_sym_spec_witness :
  exists km centers labels,
    KMeans_fit (B := Scenario.seeds_backend) 0%nat
      (KMeans_init 2 0 (Some 1%nat) (Some 0%Z)) Scenario.three_points = Ok km /\
    km_cluster_centers_ km = Some centers /\
    km_labels_ km = Some labels /\
    let residuals := X_centered 2 Scenario.three_points labels centers in
    nth 0 residuals [] =
      map (fun x => vsub x (nth 0 centers []))
        (mask_select labels (Z.of_nat 0) Scenario.three_points) /\
    entry (raw_affinity 2 centers residuals) 0 1 =
      spec_raw centers residuals 0 1 /\
    entry (bridge_affinity_sym 2 Scenario.three_points labels centers) 0 1 =
      spec_affinity centers residuals 0 1.
Proof.
  eexists. eexists. eexists.
  split; [model_eval; reflexivity|].
  split; [reflexivity|]. split; [reflexivity|].
  eapply (bridge_affinity_sym_spec (B := Scenario.seeds_backend) 0%nat
            Scenario.coarse Scenario.three_points).
  - model_eval. reflexivity.
  - reflexivity.
  - reflexivity.
  - cbn. lia.
  - cbn. lia.
Defined.

(** C4: the contrast rescale subtracts half the global maximum from the
    symmetrized matrix, takes the percentiles [q10] and [q90] of the
    recentered matrix, sets [gamma = ln(M) / (q90 - q10)] and replaces every
    entry [a] by [exp(gamma * a)]; whenever [q90 <> q10], what the rescale
    makes of the 90th percentile is [M] times what it makes of the 10th
    percentile ([M] a positive real, exact real arithmetic). *)
Theorem contrast_rescale_ratio (M : R) (sym : matrix) :
  let recentered := recenter sym in
  let gamma := contrast_gamma M recentered in
  0 < M ->
  q90 recentered <> q10 recentered ->
  recentered = map (map (fun a => a - 0.5 * amax sym)) sym /\
  gamma = ln M / (q90 recentered - q10 recentered) /\
  rescale M recentered = map (map (fun a => exp (gamma * a))) recentered /\
  rescale_value gamma (q90 recentered) / rescale_value gamma (q10 recentered)
    = M.
Proof.
  intros recentered gamma HM Hq.
  split; [reflexivity|]. split; [reflexivity|]. split; [reflexivity|].
  unfold rescale_value, Rdiv. rewrite <- exp_Ropp, <- exp_plus.
  replace (gamma * q90 recentered + - (gamma * q10 recentered)) with (ln M).
  - now apply exp_ln.
  - unfold gamma, contrast_gamma. field. lra.
Qed.

(** Comparisons between numerals. *)
Ltac decide_le :=
  repeat match goal with
         | |- context [Rle_dec ?a ?b] =>
             destruct (Rle_dec a b); [try (exfalso; lra) | try (exfalso; lra)]
         end.

Lemma recenter_two_by_two :
  recenter [[0; 1]; [1; 0]] = [[-0.5; 0.5]; [0.5; -0.5]].
Proof.
  unfold recenter, amax. cbn [concat app fold_left map].
  rewrite (Rmax_right 0 1) by lra.
  rewrite (Rmax_left 1 1) by lra.
  rewrite (Rmax_left 1 0) by lra.
  repeat (f_equal; try lra).
Qed.

Lemma quantiles_two_by_two :
  q10 [[-0.5; 0.5]; [0.5; -0.5]] = -0.5 /\
  q90 [[-0.5; 0.5]; [0.5; -0.5]] = 0.5.
Proof.
  unfold q10, q90, quantile. cbn [concat app length sort fold_right].
  cbn [insert_sorted]. decide_le. cbn [insert_sorted]. decide_le.
  cbn [insert_sorted]. decide_le.
  change ((1 * (4 - 1)) / 10)%nat with 0%nat.
  change ((9 * (4 - 1)) / 10)%nat with 2%nat.
  change (Nat.min 1 (4 - 1)) with 1%nat.
  change (Nat.min 3 (4 - 1)) with 3%nat.
  cbn [nth]. split; ring.
Qed.

Lemma contrast_rescale_ratio_witness :
  let sym := [[0; 1]; [1; 0]] in
  let recentered := recenter sym in
  let gamma := contrast_gamma 10000 recentered in
  recentered = map (map (fun a => a - 0.5 * amax sym)) sym /\
  gamma = ln 10000 / (q90 recentered - q10 recentered) /\
  rescale 10000 recentered = map (map (fun a => exp (gamma * a))) recentered /\
  rescale_value gamma (q90 recentered) / rescale_value gamma (q10 recentered)
    = 10000.
Proof.
  apply (contrast_rescale_ratio 10000 [[0; 1]; [1; 0]]).
  - lra.
  - rewrite recenter_two_by_two.
    destruct quantiles_two_by_two as [-> ->]. lra.
Defined.

(** Strict comparisons between numerals. *)
Ltac decide_lt :=
  repeat match goal with
         | |- context [Rlt_dec ?a ?b] =>
             destruct (Rlt_dec a b); [try (exfalso; lra) | try (exfalso; lra)]
         end.

(** Clipping a numeral at zero. *)
Ltac clip_eval :=
  repeat match goal with
         | |- context [Rmax 0 ?e] =>
             first [ rewrite (Rmax_left 0 e) by lra
                   | rewrite (Rmax_right 0 e) by lra ]
         end.

(** *** Two runs of the first k-means

    On the three points [0], [1], [3] with two nodes and no refinement round:
    seeded on [0] and [3], the sample [1] lies between the centroids and the
    two nodes have a positive affinity; seeded on [1] and [3], no sample lies
    between the centroids and every affinity is zero. *)

Lemma coarse_nodes :
  KMeans_fit (B := Scenario.seeds_backend) 0%nat
    (KMeans_init 2 0 (Some 1%nat) (Some 0%Z)) Scenario.three_points =
  Ok (mkKMeans 2 0 (Some 1%nat) (Some 0%Z) (Some [[0]; [3]])
        (Some [0; 0; 1]%Z)).
Proof. model_eval. decide_lt. reflexivity. Qed.

Lemma one_sided_nodes :
  KMeans_fit (B := Scenario.seeds_backend) 0%nat
    (KMeans_init 2 0 (Some 1%nat) (Some 1%Z)) Scenario.three_points =
  Ok (mkKMeans 2 0 (Some 1%nat) (Some 1%Z) (Some [[1]; [3]])
        (Some [0; 0; 1]%Z)).
Proof. model_eval. decide_lt. reflexivity. Qed.

Lemma coarse_nondegenerate : nodes_nondegenerate 2 [0; 0; 1]%Z [[0]; [3]].
Proof.
  split.
  - intros [|[|i]] Hi; cbn; auto; lia.
  - intros [|[|i]] [|[|j]] Hi Hj Hij; try lia; model_eval; lra.
Qed.

Lemma one_sided_nondegenerate : nodes_nondegenerate 2 [0; 0; 1]%Z [[1]; [3]].
Proof.
  split.
  - intros [|[|i]] Hi; cbn; auto; lia.
  - intros [|[|i]] [|[|j]] Hi Hj Hij; try lia; model_eval; lra.
Qed.

Lemma coarse_sym :
  bridge_affinity_sym 2 Scenario.three_points [0; 0; 1]%Z [[0]; [3]] =
  [[0; sqrt (/ 27)]; [sqrt (/ 27); 0]].
Proof.
  model_eval. clip_eval.
  repeat match goal with
         | |- context [sqrt (?x / INR ?k)] =>
             first [ replace (x / INR k) with 0 by (simpl INR; lra)
                   | replace (x / INR k) with (/ 27) by (simpl INR; lra) ]
         end.
  rewrite sqrt_0. reflexivity.
Qed.

Lemma one_sided_sym :
  bridge_affinity_sym 2 Scenario.three_points [0; 0; 1]%Z [[1]; [3]] =
  [[0; 0]; [0; 0]].
Proof.
  model_eval. clip_eval.
  repeat match goal with
         | |- context [sqrt (?x / INR ?k)] =>
             replace (x / INR k) with 0 by (simpl INR; lra)
         end.
  rewrite sqrt_0. reflexivity.
Qed.

Lemma recenter_off_diagonal (s : R) :
  0 <= s ->
  recenter [[0; s]; [s; 0]] = [[- (s / 2); s / 2]; [s / 2; - (s / 2)]].
Proof.
  intros Hs. unfold recenter, amax. cbn [concat app fold_left map].
  rewrite (Rmax_right 0 s) by lra.
  rewrite (Rmax_left s s) by lra.
  rewrite (Rmax_left s 0) by lra.
  repeat (f_equal; try lra).
Qed.

Lemma quantiles_off_diagonal (s : R) :
  0 < s ->
  q10 [[- (s / 2); s / 2]; [s / 2; - (s / 2)]] = - (s / 2) /\
  q90 [[- (s / 2); s / 2]; [s / 2; - (s / 2)]] = s / 2.
Proof.
  intros Hs.
  unfold q10, q90, quantile. cbn [concat app length sort fold_right].
  cbn [insert_sorted]. decide_le. cbn [insert_sorted]. decide_le.
  cbn [insert_sorted]. decide_le.
  change ((1 * (4 - 1)) / 10)%nat with 0%nat.
  change ((9 * (4 - 1)) / 10)%nat with 2%nat.
  change (Nat.min 1 (4 - 1)) with 1%nat.
  change (Nat.min 3 (4 - 1)) with 3%nat.
  cbn [nth]. split; ring.
Qed.

Lemma quantiles_flat :
  q10 [[0; 0]; [0; 0]] = 0 /\ q90 [[0; 0]; [0; 0]] = 0.
Proof.
  unfold q10, q90, quantile. cbn [concat app length sort fold_right].
  cbn [insert_sorted]. decide_le. cbn [insert_sorted]. decide_le.
  cbn [insert_sorted]. decide_le.
  change ((1 * (4 - 1)) / 10)%nat with 0%nat.
  change ((9 * (4 - 1)) / 10)%nat with 2%nat.
  change (Nat.min 1 (4 - 1)) with 1%nat.
  change (Nat.min 3 (4 - 1)) with 3%nat.
  cbn [nth]. split; ring.
Qed.

Lemma recenter_flat : recenter [[0; 0]; [0; 0]] = [[0; 0]; [0; 0]].
Proof.
  rewrite (recenter_off_diagonal 0) by lra.
  replace (- (0 / 2)) with 0 by lra. now replace (0 / 2) with 0 by lra.
Qed.

Lemma coarse_spread :
  q90 (recenter (bridge_affinity_sym 2 Scenario.three_points [0; 0; 1]%Z
                   [[0]; [3]])) <>
  q10 (recenter (bridge_affinity_sym 2 Scenario.three_points [0; 0; 1]%Z
                   [[0]; [3]])).
Proof.
  assert (Hs : 0 < sqrt (/ 27)) by (apply sqrt_lt_R0; lra).
  rewrite coarse_sym, recenter_off_diagonal by lra.
  destruct (quantiles_off_diagonal _ Hs) as [-> ->]. lra.
Qed.

Lemma ln_10000_pos : 0 < ln 10000.
Proof. rewrite <- ln_1. apply ln_increasing; lra. Qed.

(** *** Lines 251-252 on floats and on real numbers *)

(** With a positive [M] and two different percentiles, lines 251-252 stay
    within the real numbers, where they are [rescale]. *)
Lemma rescale_np_finite (M : R) (a : matrix) :
  0 < M -> q90 a <> q10 a ->
  rescale_np M a = map (map Finite) (rescale M a).
Proof.
  intros HM Hq. unfold rescale_np, rescale. cbv zeta.
  assert (Hg : contrast_gamma_np M a = Finite (contrast_gamma M a)).
  { unfold contrast_gamma_np, contrast_gamma, np_log, np_div, sign_cases.
    destruct (Rlt_dec M 0); [exfalso; lra|].
    destruct (Rlt_dec 0 M); [|exfalso; lra].
    destruct (Rlt_dec (q90 a - q10 a) 0); [reflexivity|].
    destruct (Rlt_dec 0 (q90 a - q10 a)); [reflexivity|exfalso; lra]. }
  rewrite Hg. rewrite map_map. apply map_ext. intros row.
  rewrite map_map. apply map_ext. intros x. reflexivity.
Qed.

Lemma np_entry_finite (b : matrix) (i j : nat) :
  (i < length b)%nat -> (j < length (nth i b []))%nat ->
  np_entry (map (map Finite) b) i j = Finite (entry b i j).
Proof.
  intros Hi Hj. unfold np_entry, entry.
  rewrite (nth_map_in (map Finite) _ _ [] []) by exact Hi.
  now rewrite (nth_map_in Finite _ _ 0 NaN) by exact Hj.
Qed.

(** When the recentered matrix is zero everywhere, [gamma] is
    [ln 10000 / 0 = inf] and every entry is [exp (inf * 0) = NaN]. *)
Lemma rescale_np_flat :
  rescale_np 10000 [[0; 0]; [0; 0]] = [[NaN; NaN]; [NaN; NaN]].
Proof.
  unfold rescale_np, contrast_gamma_np. cbv zeta.
  destruct quantiles_flat as [-> ->].
  pose proof ln_10000_pos as Hln.
  unfold np_log, np_div, np_mul, np_exp, sign_cases. cbn [map].
  decide_lt. reflexivity.
Qed.




(** ** The eigengap diagnostic (claims C6 and C10) *)

Lemma getitem_nth {A : Type} (l : list A) (i : nat) (d : A) :
  (i < length l)%nat -> getitem l i = Ok (nth i l d).
Proof.
  intros Hi. unfold getitem.
  destruct (nth_error l i) as [a|] eqn:E.
  - now rewrite (nth_error_nth _ _ d E).
  - apply nth_error_None in E. lia.
Qed.

Lemma getitem_out_of_range {A : Type} (l : list A) (i : nat) :
  (length l <= i)%nat -> getitem l i = Raise "IndexError".
Proof.
  intros Hi. unfold getitem.
  now rewrite (proj2 (nth_error_None l i) Hi).
Qed.

Lemma py_getitem_nat {A : Type} (l : list A) (i : nat) :
  py_getitem l (Z.of_nat i) = getitem l i.
Proof.
  unfold py_getitem.
  destruct (Z.leb_spec 0 (Z.of_nat i)); [|lia].
  now rewrite Nat2Z.id.
Qed.

(** The diagnostic on a model whose eigenvalue array is [eigvals]. *)
Lemma normalized_eigengap_in_range (sb : SpectralBridges) (eigvals : list R) :
  eigvals_ sb = Some eigvals ->
  (1 <= n_clusters sb < length eigvals)%nat ->
  normalized_eigengap sb =
  Ok ((nth (n_clusters sb) eigvals 0 - nth (n_clusters sb - 1) eigvals 0)
      / nth (n_clusters sb) eigvals 0).
Proof.
  intros He Hk. unfold normalized_eigengap. rewrite He.
  replace (Z.of_nat (n_clusters sb) - 1)%Z
    with (Z.of_nat (n_clusters sb - 1)) by lia.
  rewrite !py_getitem_nat.
  rewrite (getitem_nth eigvals (n_clusters sb) 0) by lia.
  rewrite (getitem_nth eigvals (n_clusters sb - 1) 0) by lia.
  reflexivity.
Qed.

Lemma normalized_eigengap_past_end (sb : SpectralBridges) (eigvals : list R) :
  eigvals_ sb = Some eigvals ->
  n_clusters sb = length eigvals ->
  normalized_eigengap sb = Raise "IndexError".
Proof.
  intros He Hk. unfold normalized_eigengap. rewrite He.
  rewrite py_getitem_nat, getitem_out_of_range by lia. reflexivity.
Qed.

(** C6, amended: for every fitted model with [n_clusters < n_nodes],
    [normalized_eigengap()] returns
    [(eigvals_[n_clusters] - eigvals_[n_clusters - 1]) / eigvals_[n_clusters]]
    where [eigvals_] is the eigenvalue array stored by [fit]. *)
Theorem normalized_eigengap_formula {B : Backend} (os1 os2 : RngState)
    (self sb : SpectralBridges) (X : matrix) :
  fit os1 os2 self X = Ok sb ->
  (n_clusters self < n_nodes self)%nat ->
  exists eigvals,
    eigvals_ sb = Some eigvals /\
    normalized_eigengap sb =
    Ok ((nth (n_clusters sb) eigvals 0 - nth (n_clusters sb - 1) eigvals 0)
        / nth (n_clusters sb) eigvals 0).
Proof.
  intros Hfit Hlt. apply fit_inv in Hfit.
  destruct Hfit as (km & centers & eigvals & slabels & Hkm & Hc & Hlen & Hn & Hk
                    & Hsl & Hrange & Hev & ->).
  exists eigvals. split; [reflexivity|].
  apply normalized_eigengap_in_range; [reflexivity|].
  cbn [n_clusters]. lia.
Qed.

Lemma normalized_eigengap_formula_witness :
  exists sb,
    fit (B := Scenario.seeds_backend) 0%nat 0%nat
      Scenario.coarse Scenario.three_points = Ok sb /\
    (n_clusters Scenario.coarse < n_nodes Scenario.coarse)%nat /\
    exists eigvals,
      eigvals_ sb = Some eigvals /\
      normalized_eigengap sb =
      Ok ((nth (n_clusters sb) eigvals 0 - nth (n_clusters sb - 1) eigvals 0)
          / nth (n_clusters sb) eigvals 0).
Proof.
  eexists. split; [model_eval; reflexivity|].
  split; [cbn; lia|].
  apply (normalized_eigengap_formula (B := Scenario.seeds_backend) 0%nat 0%nat
           Scenario.coarse _ Scenario.three_points).
  - model_eval. reflexivity.
  - cbn. lia.
Defined.

(** A successful run with as many final clusters as nodes. *)
Lemma full_split_fitted :
  exists sb,
    fit (B := Scenario.seeds_backend) 0%nat 0%nat
      Scenario.full_split Scenario.three_points = Ok sb /\
    n_clusters sb = 2%nat /\ eigvals_ sb = Some [1; 1].
Proof.
  eexists. split; [|split].
  - model_eval. rewrite default_n_local_trials_2.
    model_eval. same_dec. model_eval. reflexivity.
  - reflexivity.
  - reflexivity.
Qed.

(** C6 as stated fails on a fitted model with [n_clusters = n_nodes]: the
    diagnostic raises instead of returning the quotient. *)
Lemma normalized_eigengap_full_split_raises :
  exists sb,
    fit (B := Scenario.seeds_backend) 0%nat 0%nat
      Scenario.full_split Scenario.three_points = Ok sb /\
    normalized_eigengap sb = Raise "IndexError".
Proof.
  destruct full_split_fitted as [sb [Hfit [Hk He]]].
  exists sb. split; [exact Hfit|].
  apply normalized_eigengap_past_end with (eigvals := [1; 1]); assumption.
Qed.

(** C10: on every model fitted with [n_clusters = n_nodes] the array
    [eigvals_] has exactly [n_nodes] entries and [normalized_eigengap()]
    raises [IndexError] (it reads [eigvals_[n_clusters]], one position past
    the end) instead of returning a number. *)
Theorem normalized_eigengap_degenerate {B : Backend} (os1 os2 : RngState)
    (self sb : SpectralBridges) (X : matrix) :
  fit os1 os2 self X = Ok sb ->
  n_clusters self = n_nodes self ->
  exists eigvals,
    eigvals_ sb = Some eigvals /\
    length eigvals = n_nodes self /\
    getitem eigvals (n_clusters sb) = Raise "IndexError" /\
    normalized_eigengap sb = Raise "IndexError".
Proof.
  intros Hfit Heq. apply fit_inv in Hfit.
  destruct Hfit as (km & centers & eigvals & slabels & Hkm & Hc & Hlen & Hn & Hk
                    & Hsl & Hrange & Hev & ->).
  exists eigvals. cbn [eigvals_ n_clusters].
  split; [reflexivity|]. split; [exact Hev|]. split.
  - apply getitem_out_of_range. lia.
  - apply normalized_eigengap_past_end with (eigvals := eigvals);
      [reflexivity | cbn [n_clusters]; lia].
Qed.

Lemma normalized_eigengap_degenerate_witness :
  exists sb,
    fit (B := Scenario.seeds_backend) 0%nat 0%nat
      Scenario.full_split Scenario.three_points = Ok sb /\
    n_clusters Scenario.full_split = n_nodes Scenario.full_split /\
    exists eigvals,
      eigvals_ sb = Some eigvals /\
      length eigvals = n_nodes Scenario.full_split /\
      getitem eigvals (n_clusters sb) = Raise "IndexError" /\
      normalized_eigengap sb = Raise "IndexError".
Proof.
  eexists. split; [|split; [reflexivity|]].
  - model_eval. rewrite default_n_local_trials_2.
    model_eval. same_dec. model_eval. reflexivity.
  - apply (normalized_eigengap_degenerate (B := Scenario.seeds_backend)
             0%nat 0%nat Scenario.full_split _ Scenario.three_points).
    + model_eval. rewrite default_n_local_trials_2.
      model_eval. same_dec. model_eval. reflexivity.
    + reflexivity.
Defined.

(** ** Calls on a model that was never fitted (claim C9) *)

(** C9, amended: [predict] and [normalized_eigengap] called before [fit]
    return no result; both fail on their first statement, which uses the
    attribute that [__init__] set to [None], and the exception is Python's
    [TypeError].  (The package defines no exception class of its own.) *)
Theorem unfitted_calls_raise (n_clusters n_nodes : nat) (M : R) (n_iter : nat)
    (n_local_trials : option nat) (random_state : option Z)
    (d : nat) (x : matrix) :
  let sb :=
    SpectralBridges_init n_clusters n_nodes M n_iter n_local_trials random_state
  in
  predict sb d x = Raise "TypeError" /\
  normalized_eigengap sb = Raise "TypeError".
Proof. split; reflexivity. Qed.

(** C9 as stated fails: the exception raised before [fit] is not named
    [NotFittedError]. *)
Lemma unfitted_calls_not_NotFittedError :
  predict (SpectralBridges_init 3 30 10000 20 None None) 2 [[0; 0]]
    <> Raise "NotFittedError" /\
  normalized_eigengap (SpectralBridges_init 3 30 10000 20 None None)
    <> Raise "NotFittedError".
Proof. split; cbn; discriminate. Qed.

(** ** Reproducibility (claim C7) *)

Section Seeded.

Context {B : Backend}.

(** With an integer [random_state] the generator of a k-means object does
    not depend on the operating-system entropy; the one generator made from
    the seed serves the first draw and every round of candidate sampling. *)
Lemma init_centroids_seeded (os os' : RngState) (km : KMeans) (X : matrix)
    (seed : Z) :
  km_random_state km = Some seed ->
  _init_centroids os km X = _init_centroids os' km X /\
  _init_centroids os km X =
    ( ' (i0, rng) <- rng_integers (seed_rng seed) (length X) ;;
      x0 <- getitem X i0 ;;
      if (km_n_clusters km =? 0)%nat then Raise "IndexError" else
      let XX := map (fun x => dot x x) X in
      let dists := concat (_dists X [x0] XX) in
      st <- seed_loop X XX (the_n_local_trials (fill_n_local_trials km))
              (km_n_clusters (fill_n_local_trials km) - 1)
              (mkSeed rng dists (sum dists) [x0]) ;;
      Ok (fill_n_local_trials km, sd_centroids st) ).
Proof.
  intros Hs. unfold _init_centroids, default_rng. rewrite Hs. split; reflexivity.
Qed.

Lemma KMeans_fit_seeded (os os' : RngState) (km : KMeans) (X : matrix)
    (seed : Z) :
  km_random_state km = Some seed ->
  KMeans_fit os km X = KMeans_fit os' km X.
Proof.
  intros Hs. unfold KMeans_fit.
  now rewrite (proj1 (init_centroids_seeded os os' km X seed Hs)).
Qed.

Lemma SpectralClustering_fit_seeded (os os' : RngState)
    (sc : SpectralClustering) (affinity : matrix) (seed : Z) :
  sc_random_state sc = Some seed ->
  SpectralClustering_fit os sc affinity = SpectralClustering_fit os' sc affinity.
Proof.
  intros Hs. unfold SpectralClustering_fit.
  destruct (eigh (laplacian_normed affinity)) as [[eigvals eigvecs]|e];
    [|reflexivity].
  cbn [bind].
  now rewrite (KMeans_fit_seeded os os' _ _ seed) by exact Hs.
Qed.

End Seeded.

(** C7: two [fit] calls on the same data, by models with the same
    configuration and the same integer [random_state], return the same
    outcome, hence the same [cluster_centers_] and the same [eigvals_],
    whatever entropy the operating system would have supplied and whatever
    earlier fit results the two objects held.  One generator, made from the
    seed, serves the first draw and the candidate sampling of each k-means
    run. *)
Theorem fit_deterministic_in_seed {B : Backend}
    (osA1 osA2 osB1 osB2 : RngState) (sbA sbB : SpectralBridges) (X : matrix)
    (seed : Z) :
  n_clusters sbA = n_clusters sbB ->
  n_nodes sbA = n_nodes sbB ->
  M sbA = M sbB ->
  n_iter sbA = n_iter sbB ->
  n_local_trials sbA = n_local_trials sbB ->
  random_state sbA = Some seed ->
  random_state sbB = Some seed ->
  fit osA1 osA2 sbA X = fit osB1 osB2 sbB X /\
  (forall a b, fit osA1 osA2 sbA X = Ok a -> fit osB1 osB2 sbB X = Ok b ->
     cluster_centers_ a = cluster_centers_ b /\ eigvals_ a = eigvals_ b) /\
  (forall km, km_random_state km = Some seed ->
     _init_centroids osA1 km X = _init_centroids osB1 km X).
Proof.
  intros Hk Hn HM Hi Ht HsA HsB.
  assert (Heq : fit osA1 osA2 sbA X = fit osB1 osB2 sbB X).
  { unfold fit. rewrite <- Hk, <- Hn, <- HM, <- Hi, <- Ht, HsA, HsB.
    rewrite (KMeans_fit_seeded osA1 osB1 _ X seed) by reflexivity.
    destruct (KMeans_fit osB1 _ X) as [km|e]; [|reflexivity].
    cbn [bind].
    destruct (km_cluster_centers_ km) as [centers|]; [|reflexivity].
    destruct (km_labels_ km) as [labels|]; [|reflexivity].
    now rewrite (SpectralClustering_fit_seeded osA2 osB2 _ _ seed)
      by reflexivity. }
  split; [exact Heq|]. split.
  - intros a b Ha Hb. rewrite Heq in Ha. rewrite Ha in Hb.
    injection Hb as <-. split; reflexivity.
  - intros km Hs. exact (proj1 (init_centroids_seeded osA1 osB1 km X seed Hs)).
Qed.

Lemma fit_deterministic_in_seed_witness :
  let fresh := Scenario.coarse in
  let refit :=
    mkSpectralBridges 1 2 10000 0 (Some 1%nat) (Some 0%Z)
      (Some [[[5]]]) (Some [7]) in
  fit (B := Scenario.seeds_backend) 1%nat 2%nat fresh Scenario.three_points =
  fit (B := Scenario.seeds_backend) 3%nat 4%nat refit Scenario.three_points /\
  (forall a b,
     fit (B := Scenario.seeds_backend) 1%nat 2%nat fresh Scenario.three_points
       = Ok a ->
     fit (B := Scenario.seeds_backend) 3%nat 4%nat refit Scenario.three_points
       = Ok b ->
     cluster_centers_ a = cluster_centers_ b /\ eigvals_ a = eigvals_ b) /\
  (forall km, km_random_state km = Some 0%Z ->
     _init_centroids (B := Scenario.seeds_backend) 1%nat km Scenario.three_points
     = _init_centroids (B := Scenario.seeds_backend) 3%nat km
         Scenario.three_points).
Proof.
  intros fresh refit.
  apply (fit_deterministic_in_seed (B := Scenario.seeds_backend)
           1%nat 2%nat 3%nat 4%nat fresh refit Scenario.three_points 0%Z);
    reflexivity.
Defined.

(** Without a seed the outcome follows the entropy the generator is made
    from: the integer seed in C7 is needed. *)
Remark fit_unseeded_follows_entropy :
  let unseeded := SpectralBridges_init 1 2 10000 0 (Some 1%nat) None in
  exists a b,
    fit (B := Scenario.seeds_backend) 0%nat 0%nat unseeded
      Scenario.three_points = Ok a /\
    fit (B := Scenario.seeds_backend) 1%nat 1%nat unseeded
      Scenario.three_points = Ok b /\
    cluster_centers_ a = Some [[[0]; [3]]] /\
    cluster_centers_ b = Some [[[1]; [3]]].
Proof.
  eexists. eexists. split; [model_eval; reflexivity|].
  split; [model_eval; reflexivity|]. split; reflexivity.
Qed.

(** ** The default number of seeding trials (claim C8) *)

(** C8, amended: when [n_local_trials] is unspecified, [_KMeans.fit]
    computes [2 + floor(ln k)] and stores it in the [n_local_trials] field of
    the k-means object; the other configuration fields of that object keep
    their values.  [SpectralBridges.fit] builds its k-means objects anew on
    every call and returns with its own configuration fields unchanged, so a
    later [fit] on the same [SpectralBridges] object behaves as on a fresh
    one. *)
Theorem n_local_trials_default_is_stored {B : Backend}
    (os os1 os2 : RngState) (km km' : KMeans) (Xk : matrix)
    (sb sb' : SpectralBridges) (X : matrix) :
  KMeans_fit os km Xk = Ok km' ->
  fit os1 os2 sb X = Ok sb' ->
  (km_n_local_trials km' =
     Some (match km_n_local_trials km with
           | Some t => t
           | None => default_n_local_trials (km_n_clusters km)
           end) /\
   km_n_clusters km' = km_n_clusters km /\
   km_n_iter km' = km_n_iter km /\
   km_random_state km' = km_random_state km) /\
  (n_clusters sb' = n_clusters sb /\ n_nodes sb' = n_nodes sb /\
   M sb' = M sb /\ n_iter sb' = n_iter sb /\
   n_local_trials sb' = n_local_trials sb /\
   random_state sb' = random_state sb) /\
  (forall os1' os2' X', fit os1' os2' sb' X' = fit os1' os2' sb X').
Proof.
  intros Hkm Hfit. split; [|split].
  - apply KMeans_fit_inv in Hkm. destruct Hkm as [_ [_ [centroids [_ ->]]]].
    cbn. unfold the_n_local_trials. repeat split; reflexivity.
  - apply fit_inv in Hfit.
    destruct Hfit as (k & centers & eigvals & slabels & _ & _ & _ & _ & _
                      & _ & _ & _ & ->).
    cbn. repeat split; reflexivity.
  - apply fit_inv in Hfit.
    destruct Hfit as (k & centers & eigvals & slabels & _ & _ & _ & _ & _
                      & _ & _ & _ & ->).
    intros os1' os2' X'. reflexivity.
Qed.

Lemma n_local_trials_default_is_stored_witness :
  exists km' sb',
    KMeans_fit (B := Scenario.seeds_backend) 0%nat
      (KMeans_init 1 20 None (Some 0%Z)) Scenario.three_points = Ok km' /\
    fit (B := Scenario.seeds_backend) 0%nat 0%nat
      Scenario.coarse Scenario.three_points = Ok sb' /\
    (km_n_local_trials km' = Some (default_n_local_trials 1) /\
     km_n_clusters km' = 1%nat /\
     km_n_iter km' = 20%nat /\
     km_random_state km' = Some 0%Z) /\
    (n_clusters sb' = n_clusters Scenario.coarse /\
     n_nodes sb' = n_nodes Scenario.coarse /\
     M sb' = M Scenario.coarse /\ n_iter sb' = n_iter Scenario.coarse /\
     n_local_trials sb' = n_local_trials Scenario.coarse /\
     random_state sb' = random_state Scenario.coarse) /\
    (forall os1' os2' X',
       fit (B := Scenario.seeds_backend) os1' os2' sb' X' =
       fit (B := Scenario.seeds_backend) os1' os2' Scenario.coarse X').
Proof.
  eexists. eexists.
  split; [model_eval; reflexivity|]. split; [model_eval; reflexivity|].
  apply (n_local_trials_default_is_stored (B := Scenario.seeds_backend)
           0%nat 0%nat 0%nat (KMeans_init 1 20 None (Some 0%Z)) _
           Scenario.three_points Scenario.coarse _ Scenario.three_points).
  - model_eval. reflexivity.
  - model_eval. reflexivity.
Defined.

(** C8 as stated fails: a k-means object created without [n_local_trials]
    holds the computed default after [fit]. *)
Lemma KMeans_fit_overwrites_n_local_trials :
  exists km',
    KMeans_fit (B := Scenario.seeds_backend) 0%nat
      (KMeans_init 2 0 None (Some 0%Z)) Scenario.three_points = Ok km' /\
    km_n_local_trials (KMeans_init 2 0 None (Some 0%Z)) = None /\
    km_n_local_trials km' = Some 2%nat.
Proof.
  eexists. split; [|split].
  - model_eval. rewrite default_n_local_trials_2.
    model_eval. same_dec. model_eval. reflexivity.
  - reflexivity.
  - reflexivity.
Qed.

(** * Further properties of the code *)

(** ** Distances ([_KMeans._dists]) *)

Lemma sum_nonneg (l : list R) : Forall (fun a => 0 <= a) l -> 0 <= sum l.
Proof.
  induction 1 as [|a l Ha _ IH]; simpl; lra.
Qed.

Lemma sqdist_nonneg (q c : list R) : 0 <= sqdist q c.
Proof.
  unfold sqdist, dot, vsub. revert c.
  induction q as [|a q IH]; intros [|b c]; simpl; try lra.
  specialize (IH c). pose proof (Rle_0_sqr (a - b)) as Hsq.
  unfold Rsqr in Hsq. lra.
Qed.

(** The expanded form [xx - 2 x.y + yy] is the squared distance. *)
Lemma sqdist_expand (x c : list R) :
  length x = length c ->
  dot x x - 2 * dot x c + dot c c = sqdist x c.
Proof.
  unfold sqdist, dot, vsub. revert c.
  induction x as [|a x IH]; intros [|b c] Hlen; simpl in *;
    try discriminate; [lra|].
  specialize (IH c ltac:(lia)). lra.
Qed.

Lemma length_dists (X y : list (list R)) :
  length (_dists X y (map (fun x => dot x x) X)) = length X.
Proof.
  unfold _dists. rewrite length_map2, length_map. lia.
Qed.

Lemma nth_dists_row (X y : list (list R)) (p : nat) :
  (p < length X)%nat ->
  nth p (_dists X y (map (fun x => dot x x) X)) [] =
  map (fun c => Rmax 0 (dot (nth p X []) (nth p X []) - 2 * dot (nth p X []) c
                        + dot c c)) y.
Proof.
  intros Hp. unfold _dists.
  rewrite (nth_map2 _ X (map (fun x => dot x x) X) p [] 0 [])
    by (rewrite ?length_map; exact Hp).
  rewrite (nth_map_in (fun x => dot x x) X p [] 0) by exact Hp.
  generalize (nth p X []). intros x.
  induction y as [|c y IH]; simpl; [reflexivity|]. now rewrite IH.
Qed.

(** X1: [_dists] returns one row per point and one column per centre; no entry
    is negative, and for points and centres of one common width the entry
    for point [p] and centre [c] is their squared Euclidean distance (over
    the reals the clip at zero changes nothing). *)
Theorem dists_are_squared_distances (X y : list (list R)) (d : nat) :
  Forall (fun x => length x = d) X ->
  Forall (fun c => length c = d) y ->
  let D := _dists X y (map (fun x => dot x x) X) in
  length D = length X /\
  (forall p, (p < length X)%nat -> length (nth p D []) = length y) /\
  Forall (Forall (fun a => 0 <= a)) D /\
  forall p c, (p < length X)%nat -> (c < length y)%nat ->
    entry D p c = sqdist (nth p X []) (nth c y []).
Proof.
  intros HX Hy D. split; [apply length_dists|]. split; [|split].
  - intros p Hp. unfold D. rewrite nth_dists_row by exact Hp.
    apply length_map.
  - apply Forall_forall. intros row Hrow.
    apply In_nth with (d := []) in Hrow. destruct Hrow as [p [Hp <-]].
    unfold D in *. rewrite length_dists in Hp.
    rewrite nth_dists_row by exact Hp.
    apply Forall_forall. intros a Ha. apply in_map_iff in Ha.
    destruct Ha as [c [<- _]]. apply Rmax_l.
  - intros p c Hp Hc. unfold entry, D. rewrite nth_dists_row by exact Hp.
    rewrite (nth_map_in _ y c [] 0) by exact Hc.
    rewrite Forall_forall in HX, Hy.
    rewrite sqdist_expand
      by (rewrite (HX (nth p X [])) by (now apply nth_In);
          now rewrite (Hy (nth c y [])) by (now apply nth_In)).
    apply Rmax_right. apply sqdist_nonneg.
Qed.

Lemma dists_are_squared_distances_witness :
  let X := [[0; 0]; [3; 4]] in
  let y := [[0; 0]; [1; 1]; [3; 4]] in
  let D := _dists X y (map (fun x => dot x x) X) in
  length D = length X /\
  (forall p, (p < length X)%nat -> length (nth p D []) = length y) /\
  Forall (Forall (fun a => 0 <= a)) D /\
  forall p c, (p < length X)%nat -> (c < length y)%nat ->
    entry D p c = sqdist (nth p X []) (nth c y []).
Proof.
  apply (dists_are_squared_distances [[0; 0]; [3; 4]]
           [[0; 0]; [1; 1]; [3; 4]] 2); repeat constructor.
Defined.

(** ** The default number of trials ([_KMeans._init_centroids], line 64) *)

(** X2: for [k >= 1] clusters the default [t = 2 + int(np.log(k))] is at least 2
    and is the integer with [e^(t-2) <= k < e^(t-1)]. *)
Theorem default_n_local_trials_bounds (k : nat) :
  (1 <= k)%nat ->
  (2 <= default_n_local_trials k)%nat /\
  exp (INR (default_n_local_trials k - 2)) <= INR k
    < exp (INR (default_n_local_trials k - 1)).
Proof.
  intros Hk. unfold default_n_local_trials.
  assert (H1 : 1 <= INR k) by (change 1 with (INR 1); apply le_INR; exact Hk).
  assert (Hln : 0 <= ln (INR k)).
  { rewrite <- ln_1. destruct (Req_dec 1 (INR k)) as [<-|Hne]; [lra|].
    left. apply ln_increasing; lra. }
  destruct (base_Int_part (ln (INR k))) as [Hlo Hhi].
  set (z := Int_part (ln (INR k))) in *.
  assert (Hz : (0 <= z)%Z).
  { assert (Hgt : IZR (-1) < IZR z) by lra.
    apply lt_IZR in Hgt. lia. }
  split; [lia|].
  replace (2 + Z.to_nat z - 2)%nat with (Z.to_nat z) by lia.
  replace (2 + Z.to_nat z - 1)%nat with (S (Z.to_nat z)) by lia.
  rewrite S_INR, INR_IZR_INZ, Z2Nat.id by exact Hz.
  assert (Hexp : exp (ln (INR k)) = INR k) by (apply exp_ln; lra).
  split.
  - rewrite <- Hexp.
    destruct Hlo as [Hlt|Heq];
      [left; now apply exp_increasing | right; now rewrite Heq].
  - rewrite <- Hexp at 1. apply exp_increasing. lra.
Qed.

Lemma default_n_local_trials_bounds_witness :
  (2 <= default_n_local_trials 30)%nat /\
  exp (INR (default_n_local_trials 30 - 2)) <= INR 30
    < exp (INR (default_n_local_trials 30 - 1)).
Proof.
  apply (default_n_local_trials_bounds 30). lia.
Defined.

(** ** The seeding loop ([_KMeans._init_centroids], lines 52-83) *)

Lemma take_rows_spec {A : Type} (l : list A) (ids : list nat) (rows : list A)
    (d : A) :
  take_rows l ids = Ok rows ->
  length rows = length ids /\
  forall t, (t < length ids)%nat -> getitem l (nth t ids 0%nat) = Ok (nth t rows d).
Proof.
  revert rows; induction ids as [|i ids IH]; intros rows H; simpl in H.
  - injection H as <-. split; [reflexivity|]. intros t Ht. simpl in Ht. lia.
  - bind_inv H. bind_inv H. injection H as <-.
    destruct (IH a0 Hcall0) as [Hlen Hnth]. split; [simpl; lia|].
    intros [|t] Ht; simpl in *; [exact Hcall | apply Hnth; lia].
Qed.

Lemma column_candidates_dists (X cands : list (list R)) (dists : list R)
    (t : nat) :
  (t < length cands)%nat ->
  column t
    (map2 (fun row d => map (fun c => Rmin c d) row)
       (_dists X cands (map (fun x => dot x x) X)) dists) =
  potentials_after X dists (nth t cands []).
Proof.
  intros Ht. unfold potentials_after, column, _dists. revert dists.
  induction X as [|x X IH]; intros [|d dists]; cbn [map map2];
    try reflexivity.
  f_equal; [|apply IH].
  rewrite (nth_map_in (fun c => Rmin c d) _ t 0 0)
    by (rewrite length_map2, length_map; lia).
  rewrite (nth_map2 _ cands (map (fun c => dot c c) cands) t [] 0 0)
    by (rewrite ?length_map; exact Ht).
  now rewrite (nth_map_in (fun c => dot c c) cands t [] 0) by exact Ht.
Qed.

Lemma concat_dists_single (X : list (list R)) (x0 : list R) :
  concat (_dists X [x0] (map (fun x => dot x x) X)) =
  map (fun x => Rmax 0 (dot x x - 2 * dot x x0 + dot x0 x0)) X.
Proof.
  unfold _dists. induction X as [|x X IH]; cbn [map map2 concat app];
    [reflexivity|].
  f_equal. exact IH.
Qed.

Lemma potential_after_bounds (c x : list R) (d : R) :
  0 <= d -> 0 <= potential_after c x d <= d.
Proof.
  intros Hd. unfold potential_after. split; [|apply Rmin_r].
  apply Rmin_glb; [apply Rmax_l | exact Hd].
Qed.

Lemma potential_after_self (x : list R) (d : R) :
  0 <= d -> potential_after x x d = 0.
Proof.
  intros Hd. unfold potential_after.
  replace (dot x x - 2 * dot x x + dot x x) with 0 by ring.
  rewrite Rmax_left by lra. now apply Rmin_left.
Qed.

Lemma length_potentials_after (X : list (list R)) (dists : list R) (c : list R) :
  length dists = length X -> length (potentials_after X dists c) = length X.
Proof.
  intros H. unfold potentials_after. rewrite length_map2. lia.
Qed.

Lemma nth_potentials_after (X : list (list R)) (dists : list R) (c : list R)
    (p : nat) :
  length dists = length X -> (p < length X)%nat ->
  nth p (potentials_after X dists c) 0 =
  potential_after c (nth p X []) (nth p dists 0).
Proof.
  intros H Hp. unfold potentials_after.
  apply nth_map2; lia.
Qed.

Lemma sum_le_pointwise (l m : list R) :
  length l = length m ->
  (forall p, (p < length l)%nat -> nth p l 0 <= nth p m 0) ->
  sum l <= sum m.
Proof.
  revert m; induction l as [|a l IH]; intros [|b m] Hlen H; simpl in *;
    try discriminate; [lra|].
  pose proof (H 0%nat ltac:(lia)) as H0. simpl in H0.
  assert (sum l <= sum m).
  { apply IH; [lia|]. intros p Hp. apply (H (S p)). lia. }
  lra.
Qed.

Section SeedingFacts.

Context {B : Backend}.

Variable X : list (list R).

(** What one successful round does. *)
Lemma seed_step_inv (trials : nat) (st st' : SeedState) :
  seed_step X (map (fun x => dot x x) X) trials st = Ok st' ->
  exists (ids : list nat) (rng' : RngState) (t : nat) (x : list R),
    rng_choice (sd_rng st) (length X) trials
      (map (fun d => d / sd_inertia st) (sd_dists st)) = Ok (ids, rng') /\
    (t < length ids)%nat /\
    getitem X (nth t ids 0%nat) = Ok x /\
    st' = mkSeed rng' (potentials_after X (sd_dists st) x)
            (sum (potentials_after X (sd_dists st) x))
            (sd_centroids st ++ [x]) /\
    forall t' c, (t' < length ids)%nat ->
      getitem X (nth t' ids 0%nat) = Ok c ->
      sum (potentials_after X (sd_dists st) x) <=
      sum (potentials_after X (sd_dists st) c).
Proof.
  unfold seed_step. intros H.
  bind_inv H. destruct a as [ids rng'].
  bind_inv H. rename a into cands.
  destruct (take_rows_spec X ids cands [] Hcall0) as [Hlen Hrows].
  set (cd := map2 _ _ _) in H.
  bind_inv H. rename a into best.
  bind_inv H. rename a into best_candidate.
  bind_inv H. rename a into inertia.
  bind_inv H. rename a into x. injection H as <-.
  assert (Hin : forall t, (t < length ids)%nat ->
            nth t (sum_axis0 (length ids) cd) 0 =
            sum (potentials_after X (sd_dists st) (nth t cands []))).
  { intros t Ht. unfold sum_axis0. rewrite nth_map_seq by exact Ht.
    unfold cd. now rewrite column_candidates_dists by lia. }
  assert (Hbest : (best < length ids)%nat /\
            forall t, (t < length ids)%nat ->
              nth best (sum_axis0 (length ids) cd) 0 <=
              nth t (sum_axis0 (length ids) cd) 0).
  { unfold argmin in Hcall1.
    destruct (sum_axis0 (length ids) cd) as [|d ds] eqn:E; [discriminate|].
    injection Hcall1 as <-.
    destruct (argmin_first_spec d ds) as [Hlt Hmin].
    assert (Hl : length (d :: ds) = length ids).
    { rewrite <- E. unfold sum_axis0. now rewrite length_map, length_seq. }
    rewrite Hl in Hlt, Hmin. split; assumption. }
  destruct Hbest as [Hb Hmin].
  assert (Hbc : best_candidate = nth best ids 0%nat).
  { rewrite (getitem_nth ids best 0%nat Hb) in Hcall2. now injection Hcall2. }
  assert (Hx : nth best cands [] = x).
  { pose proof (Hrows best Hb) as Hr. rewrite <- Hbc, Hcall4 in Hr.
    now injection Hr. }
  exists ids, rng', best, x.
  split; [exact Hcall|]. split; [exact Hb|].
  split; [rewrite <- Hbc; exact Hcall4|]. split.
  - f_equal.
    + unfold cd. rewrite column_candidates_dists by lia. now rewrite Hx.
    + rewrite (getitem_nth _ best 0) in Hcall3
        by (unfold sum_axis0; rewrite length_map, length_seq; exact Hb).
      injection Hcall3 as <-. rewrite Hin by exact Hb. now rewrite Hx.
  - intros t' c Ht' Hc. specialize (Hmin t' Ht').
    rewrite !Hin in Hmin by assumption. rewrite Hx in Hmin.
    pose proof (Hrows t' Ht') as Hr. rewrite Hc in Hr.
    injection Hr as Hc'. rewrite <- Hc' in Hmin. exact Hmin.
Qed.

Lemma seed_inv_start (rng : RngState) (i0 : nat) (x0 : list R) :
  getitem X i0 = Ok x0 -> seed_inv X (seed_start X rng x0).
Proof.
  intros H0. unfold seed_inv, seed_start. cbn [sd_dists sd_inertia sd_centroids].
  rewrite concat_dists_single. split; [apply length_map|].
  split; [|split; [reflexivity|split]].
  - apply Forall_forall. intros a Ha. apply in_map_iff in Ha.
    destruct Ha as [x [<- _]]. apply Rmax_l.
  - constructor; [|constructor]. unfold getitem in H0.
    destruct (nth_error X i0) eqn:E; [|discriminate].
    injection H0 as <-. eapply nth_error_In. exact E.
  - intros p Hp [Hin|[]].
    rewrite (nth_map_in _ X p [] 0) by exact Hp. rewrite <- Hin.
    replace (dot x0 x0 - 2 * dot x0 x0 + dot x0 x0) with 0 by ring.
    apply Rmax_left. lra.
Qed.

Lemma seed_inv_step (trials : nat) (st st' : SeedState) :
  seed_inv X st ->
  seed_step X (map (fun x => dot x x) X) trials st = Ok st' ->
  seed_inv X st' /\
  length (sd_centroids st') = S (length (sd_centroids st)) /\
  sd_inertia st' <= sd_inertia st.
Proof.
  intros (Hlen & Hnn & Hsum & Hcs & Hzero) Hstep.
  apply seed_step_inv in Hstep.
  destruct Hstep as (ids & rng' & t & x & _ & _ & Hx & -> & _).
  cbn [sd_dists sd_inertia sd_centroids].
  assert (Hdp : forall p, (p < length X)%nat -> 0 <= nth p (sd_dists st) 0).
  { intros p Hp. rewrite Forall_forall in Hnn. apply Hnn, nth_In. lia. }
  split; [|split].
  - unfold seed_inv. cbn [sd_dists sd_inertia sd_centroids].
    split; [now apply length_potentials_after|].
    split; [|split; [reflexivity|split]].
    + apply Forall_forall. intros a Ha.
      apply In_nth with (d := 0) in Ha. destruct Ha as [p [Hp <-]].
      rewrite length_potentials_after in Hp by exact Hlen.
      rewrite nth_potentials_after by assumption.
      apply potential_after_bounds. now apply Hdp.
    + apply Forall_app. split; [exact Hcs|]. constructor; [|constructor].
      unfold getitem in Hx. destruct (nth_error X _) eqn:E; [|discriminate].
      injection Hx as <-. eapply nth_error_In. exact E.
    + intros p Hp Hin. rewrite nth_potentials_after by assumption.
      apply in_app_or in Hin. destruct Hin as [Hold|[Hnew|[]]].
      * rewrite (Hzero p Hp Hold). unfold potential_after.
        apply Rmin_right. apply Rmax_l.
      * rewrite <- Hnew. apply potential_after_self. now apply Hdp.
  - rewrite length_app. simpl. lia.
  - rewrite Hsum. apply sum_le_pointwise.
    + rewrite length_potentials_after by exact Hlen. now rewrite Hlen.
    + intros p Hp. rewrite length_potentials_after in Hp by exact Hlen.
      rewrite nth_potentials_after by assumption.
      apply potential_after_bounds. now apply Hdp.
Qed.

Lemma seed_inv_loop (trials rounds : nat) (st st' : SeedState) :
  seed_inv X st ->
  seed_loop X (map (fun x => dot x x) X) trials rounds st = Ok st' ->
  seed_inv X st' /\
  length (sd_centroids st') = (length (sd_centroids st) + rounds)%nat /\
  sd_inertia st' <= sd_inertia st.
Proof.
  revert st; induction rounds as [|rounds IH]; intros st Hinv H; simpl in H.
  - injection H as <-. split; [exact Hinv|]. split; [lia|lra].
  - bind_inv H. destruct (seed_inv_step trials st a Hinv Hcall) as [Ha [Hl Hi]].
    destruct (IH a Ha H) as [Hinv' [Hl' Hi']].
    split; [exact Hinv'|]. split; [lia|lra].
Qed.

End SeedingFacts.

Lemma sum_scaled (l : list R) (s : R) :
  sum (map (fun d => d / s) l) = sum l / s.
Proof.
  induction l as [|a l IH]; simpl; [unfold Rdiv; ring|].
  rewrite IH. unfold Rdiv. ring.
Qed.

(** X3: the seeds returned by [_init_centroids] are [n_clusters] rows of the
    data. *)
Theorem init_centroids_are_data_rows {B : Backend} (os : RngState)
    (km km' : KMeans) (X init : list (list R)) :
  _init_centroids os km X = Ok (km', init) ->
  length init = km_n_clusters km /\
  Forall (fun c => In c X) init.
Proof.
  intros H. pose proof (init_centroids_inv os km km' X init H) as [_ [Hk _]].
  unfold _init_centroids in H.
  bind_inv H. destruct a as [i0 rng]. bind_inv H. rename a into x0.
  destruct (km_n_clusters km =? 0)%nat; [discriminate|].
  bind_inv H. rename a into st. injection H as _ <-.
  destruct (fill_n_local_trials_fields km) as [Ek _].
  rewrite Ek in Hcall1.
  destruct (seed_inv_loop X _ _ (seed_start X rng x0) st
              (seed_inv_start X rng i0 x0 Hcall0) Hcall1)
    as [(_ & _ & _ & Hcs & _) [Hlen _]].
  split; [|exact Hcs]. rewrite Hlen. cbn. lia.
Qed.

Lemma init_centroids_are_data_rows_witness :
  exists km' init,
    _init_centroids (B := Scenario.seeds_backend) 0%nat
      (KMeans_init 2 0 (Some 1%nat) (Some 0%Z)) Scenario.three_points
      = Ok (km', init) /\
    length init = 2%nat /\
    Forall (fun c => In c Scenario.three_points) init.
Proof.
  eexists. eexists. split; [model_eval; reflexivity|].
  eapply (init_centroids_are_data_rows (B := Scenario.seeds_backend) 0%nat
            (KMeans_init 2 0 (Some 1%nat) (Some 0%Z))).
  model_eval. reflexivity.
Defined.

(** X4: between any two rounds of the seeding loop the potentials are
    non-negative and [inertia] is their total, which never exceeds the total
    on entry; so whenever [inertia] is not zero the weights [dists / inertia]
    handed to [rng.choice] are non-negative and sum to 1, and every point
    that is already a centroid has weight zero. *)
Theorem seeding_weights_are_a_distribution {B : Backend} (X : list (list R))
    (rng : RngState) (i0 : nat) (x0 : list R) (trials rounds : nat)
    (st : SeedState) :
  getitem X i0 = Ok x0 ->
  seed_loop X (map (fun x => dot x x) X) trials rounds (seed_start X rng x0)
    = Ok st ->
  let weights := map (fun d => d / sd_inertia st) (sd_dists st) in
  length weights = length X /\
  Forall (fun d => 0 <= d) (sd_dists st) /\
  sd_inertia st = sum (sd_dists st) /\
  sd_inertia st <= sd_inertia (seed_start X rng x0) /\
  (sd_inertia st <> 0 -> Forall (fun w => 0 <= w) weights /\ sum weights = 1) /\
  (forall p, (p < length X)%nat -> In (nth p X []) (sd_centroids st) ->
     nth p weights 0 = 0).
Proof.
  intros H0 Hloop weights.
  destruct (seed_inv_loop X trials rounds _ st (seed_inv_start X rng i0 x0 H0)
              Hloop) as [(Hlen & Hnn & Hsum & _ & Hzero) [_ Hle]].
  split; [unfold weights; now rewrite length_map|].
  split; [exact Hnn|]. split; [exact Hsum|]. split; [exact Hle|]. split.
  - intros Hne.
    assert (Hpos : 0 < sd_inertia st).
    { pose proof (sum_nonneg _ Hnn). lra. }
    split.
    + apply Forall_forall. intros w Hw. apply in_map_iff in Hw.
      destruct Hw as [d [<- Hd]]. rewrite Forall_forall in Hnn.
      specialize (Hnn d Hd). apply Rmult_le_pos; [exact Hnn|].
      left. now apply Rinv_0_lt_compat.
    + unfold weights. rewrite sum_scaled, <- Hsum. now field.
  - intros p Hp Hin. unfold weights.
    rewrite (nth_map_in _ (sd_dists st) p 0 0) by lia.
    rewrite (Hzero p Hp Hin). unfold Rdiv. ring.
Qed.

Lemma seeding_weights_are_a_distribution_witness :
  exists st,
    getitem Scenario.three_points 0 = Ok [0] /\
    seed_loop (B := Scenario.seeds_backend) Scenario.three_points
      (map (fun x => dot x x) Scenario.three_points) 1 1
      (seed_start (B := Scenario.seeds_backend) Scenario.three_points 1%nat [0])
      = Ok st /\
    let weights := map (fun d => d / sd_inertia st) (sd_dists st) in
    length weights = length Scenario.three_points /\
    Forall (fun d => 0 <= d) (sd_dists st) /\
    sd_inertia st = sum (sd_dists st) /\
    sd_inertia st <=
      sd_inertia
        (seed_start (B := Scenario.seeds_backend) Scenario.three_points 1%nat [0]) /\
    (sd_inertia st <> 0 ->
       Forall (fun w => 0 <= w) weights /\ sum weights = 1) /\
    (forall p, (p < length Scenario.three_points)%nat ->
       In (nth p Scenario.three_points []) (sd_centroids st) ->
       nth p weights 0 = 0).
Proof.
  eexists. split; [reflexivity|]. split; [model_eval; reflexivity|].
  apply (seeding_weights_are_a_distribution (B := Scenario.seeds_backend)
           Scenario.three_points 1%nat 0 [0] 1 1).
  - reflexivity.
  - model_eval. reflexivity.
Defined.

(** X5: one round of the seeding loop adopts one of the candidates drawn by
    [rng.choice]: the new potentials are the element-wise minimum of the old
    ones and the clipped squared distances to the adopted point, [inertia]
    becomes their total, no candidate of the round would have given a smaller
    total, and the total does not grow. *)
Theorem seed_step_is_greedy {B : Backend} (X : list (list R)) (trials : nat)
    (st st' : SeedState) :
  seed_inv X st ->
  seed_step X (map (fun x => dot x x) X) trials st = Ok st' ->
  exists (ids : list nat) (rng' : RngState) (id : nat) (x : list R),
    rng_choice (sd_rng st) (length X) trials
      (map (fun d => d / sd_inertia st) (sd_dists st)) = Ok (ids, rng') /\
    In id ids /\ getitem X id = Ok x /\
    sd_rng st' = rng' /\
    sd_centroids st' = sd_centroids st ++ [x] /\
    sd_dists st' = potentials_after X (sd_dists st) x /\
    sd_inertia st' = sum (sd_dists st') /\
    (forall id' c, In id' ids -> getitem X id' = Ok c ->
       sd_inertia st' <= sum (potentials_after X (sd_dists st) c)) /\
    sd_inertia st' <= sd_inertia st.
Proof.
  intros Hinv Hstep.
  destruct (seed_inv_step X trials st st' Hinv Hstep) as [_ [_ Hle]].
  apply seed_step_inv in Hstep.
  destruct Hstep as (ids & rng' & t & x & Hch & Ht & Hx & -> & Hmin).
  exists ids, rng', (nth t ids 0%nat), x.
  cbn [sd_rng sd_dists sd_inertia sd_centroids] in *.
  repeat split; auto.
  - now apply nth_In.
  - intros id' c Hin Hc. apply In_nth with (d := 0%nat) in Hin.
    destruct Hin as [t' [Ht' <-]]. now apply (Hmin t' c).
Qed.

Lemma seed_step_is_greedy_witness :
  let X := Scenario.three_points in
  let st := seed_start (B := Scenario.seeds_backend) X 1%nat [0] in
  exists st',
    seed_inv X st /\
    seed_step (B := Scenario.seeds_backend) X (map (fun x => dot x x) X) 1 st
      = Ok st' /\
    exists (ids : list nat) (rng' : nat) (id : nat) (x : list R),
      Scenario.counter_choice (sd_rng st) (length X) 1
        (map (fun d => d / sd_inertia st) (sd_dists st)) = Ok (ids, rng') /\
      In id ids /\ getitem X id = Ok x /\
      sd_rng st' = rng' /\
      sd_centroids st' = sd_centroids st ++ [x] /\
      sd_dists st' = potentials_after X (sd_dists st) x /\
      sd_inertia st' = sum (sd_dists st') /\
      (forall id' c, In id' ids -> getitem X id' = Ok c ->
         sd_inertia st' <= sum (potentials_after X (sd_dists st) c)) /\
      sd_inertia st' <= sd_inertia st.
Proof.
  intros X st. eexists.
  split; [exact (seed_inv_start (B := Scenario.seeds_backend) X 1%nat 0 [0] eq_refl)|].
  split; [model_eval; reflexivity|].
  apply (seed_step_is_greedy (B := Scenario.seeds_backend) X 1 st).
  - exact (seed_inv_start (B := Scenario.seeds_backend) X 1%nat 0 [0] eq_refl).
  - model_eval. reflexivity.
Defined.

(** ** The outcome of [_KMeans.fit] (lines 85-109) *)

(** X6: after [_KMeans.fit], [cluster_centers_] has [n_clusters] rows and
    [labels_] has one entry per data row: the index of a centroid that no
    other centroid is nearer to that row than. *)
Theorem KMeans_fit_labels_nearest {B : Backend} (os : RngState)
    (km km' : KMeans) (X : list (list R)) :
  KMeans_fit os km X = Ok km' ->
  exists (centroids : list (list R)) (labels : list Z),
    km_cluster_centers_ km' = Some centroids /\
    km_labels_ km' = Some labels /\
    length centroids = km_n_clusters km /\
    length labels = length X /\
    forall p x, nth_error X p = Some x ->
      exists w,
        nth_error labels p = Some (Z.of_nat w) /\
        (w < km_n_clusters km)%nat /\
        forall c, In c centroids ->
          sqdist x (nth w centroids []) <= sqdist x c.
Proof.
  intros H. apply KMeans_fit_inv in H.
  destruct H as [_ [Hk [centroids [Hlen ->]]]].
  exists centroids, (map (search1 centroids) X).
  cbn [km_cluster_centers_ km_labels_].
  split; [reflexivity|]. split; [reflexivity|]. split; [exact Hlen|].
  split; [apply length_map|].
  intros p x Hp.
  assert (Hne : centroids <> []).
  { intros ->. simpl in Hlen. congruence. }
  destruct (search1_spec centroids x Hne) as [w [Hs [Hw Hmin]]].
  exists w. split; [|split; [lia | exact Hmin]].
  rewrite nth_error_map, Hp. cbn [option_map]. now rewrite Hs.
Qed.

Lemma KMeans_fit_labels_nearest_witness :
  exists km',
    KMeans_fit (B := Scenario.seeds_backend) 0%nat
      (KMeans_init 2 0 (Some 1%nat) (Some 0%Z)) Scenario.three_points = Ok km' /\
    exists (centroids : list (list R)) (labels : list Z),
      km_cluster_centers_ km' = Some centroids /\
      km_labels_ km' = Some labels /\
      length centroids = 2%nat /\
      length labels = length Scenario.three_points /\
      forall p x, nth_error Scenario.three_points p = Some x ->
        exists w,
          nth_error labels p = Some (Z.of_nat w) /\
          (w < 2)%nat /\
          forall c, In c centroids ->
            sqdist x (nth w centroids []) <= sqdist x c.
Proof.
  eexists. split; [model_eval; reflexivity|].
  apply (KMeans_fit_labels_nearest (B := Scenario.seeds_backend) 0%nat
           (KMeans_init 2 0 (Some 1%nat) (Some 0%Z)) _ Scenario.three_points).
  model_eval. reflexivity.
Defined.

(** ** What [fit] needs to succeed *)

(** X7: [fit] returns a model only for non-empty data and at least one node and
    one final cluster, and the model it returns has both [cluster_centers_]
    and [eigvals_] set: with no data, [n_nodes = 0] or [n_clusters = 0] the
    call raises. *)
Theorem fit_success_requirements {B : Backend} (os1 os2 : RngState)
    (self sb : SpectralBridges) (X : list (list R)) :
  fit os1 os2 self X = Ok sb ->
  X <> [] /\ (1 <= n_nodes self)%nat /\ (1 <= n_clusters self)%nat /\
  cluster_centers_ sb <> None /\ eigvals_ sb <> None.
Proof.
  intros H. apply fit_inv in H.
  destruct H as (km & centers & eigvals & slabels & Hkm & _ & _ & Hn & Hk
                 & _ & _ & _ & ->).
  apply KMeans_fit_inv in Hkm. destruct Hkm as [HX _].
  cbn. repeat split; try lia; try discriminate; exact HX.
Qed.

Lemma fit_success_requirements_witness :
  exists sb,
    fit (B := Scenario.seeds_backend) 0%nat 0%nat
      Scenario.coarse Scenario.three_points = Ok sb /\
    Scenario.three_points <> [] /\
    (1 <= n_nodes Scenario.coarse)%nat /\
    (1 <= n_clusters Scenario.coarse)%nat /\
    cluster_centers_ sb <> None /\ eigvals_ sb <> None.
Proof.
  eexists. split; [model_eval; reflexivity|].
  apply (fit_success_requirements (B := Scenario.seeds_backend) 0%nat 0%nat
           Scenario.coarse _ Scenario.three_points).
  model_eval. reflexivity.
Defined.

(** ** Nodes and their members ([SpectralBridges.fit], lines 222-232) *)

Lemma mask_groups_perm {A : Type} (k : nat) (l : list A) (labels : list Z) :
  length labels = length l ->
  Forall (fun z => (0 <= z < Z.of_nat k)%Z) labels ->
  Permutation
    (concat (map (fun i => mask_select labels (Z.of_nat i) l) (seq 0 k))) l.
Proof.
  intros Hlen Hall. rewrite groups_below_perm.
  rewrite forallb_filter_id.
  - rewrite map_snd_combine_eq; [reflexivity | exact Hlen].
  - apply forallb_forall. intros [m x] Hin. cbn [fst].
    apply in_combine_l in Hin. rewrite Forall_forall in Hall.
    specialize (Hall m Hin). zbool.
Qed.

Lemma list_sum_lengths_concat {A : Type} (l : list (list A)) :
  list_sum (map (@length A) l) = length (concat l).
Proof.
  induction l as [|a l IH]; simpl; [reflexivity|].
  rewrite length_app. lia.
Qed.

(** X8: the first k-means of [fit] splits the data among the nodes: the
    residuals of node [i] are the rows labelled [i], in order, each minus the
    centroid of node [i]; every row is a member of exactly one node, and the
    member counts add up to the number of rows. *)
Theorem nodes_partition_the_data {B : Backend} (os : RngState)
    (self : SpectralBridges) (X : list (list R)) (km : KMeans)
    (centers : list (list R)) (labels : list Z) :
  KMeans_fit os
    (KMeans_init (n_nodes self) (n_iter self) (n_local_trials self)
       (random_state self)) X = Ok km ->
  km_cluster_centers_ km = Some centers ->
  km_labels_ km = Some labels ->
  let residuals := X_centered (n_nodes self) X labels centers in
  length residuals = n_nodes self /\
  (forall i, (i < n_nodes self)%nat ->
     nth i residuals [] =
     map (fun p => vsub (nth p X []) (nth i centers [])) (node_ids labels i)) /\
  (forall p, (p < length X)%nat ->
     exists i, (i < n_nodes self)%nat /\
       forall i', In p (node_ids labels i') <-> i' = i) /\
  list_sum (map (@length (list R)) residuals) = length X.
Proof.
  intros Hkm Hc Hl residuals. apply KMeans_fit_inv in Hkm.
  destruct Hkm as [_ [Hn [centroids [Hlen ->]]]].
  cbn in Hc, Hl, Hlen, Hn. injection Hc as <-. injection Hl as <-.
  set (labels := map (search1 centroids) X) in *.
  assert (Hll : length labels = length X) by apply length_map.
  assert (Hrange : Forall (fun z => (0 <= z < Z.of_nat (n_nodes self))%Z) labels).
  { apply Forall_forall. intros z Hz. apply in_map_iff in Hz.
    destruct Hz as [q [<- _]]. rewrite <- Hlen. apply search1_range.
    intros ->. simpl in Hlen. congruence. }
  split; [apply length_X_centered|]. split; [|split].
  - intros i Hi. unfold residuals, X_centered.
    rewrite nth_map_seq by exact Hi.
    rewrite (mask_select_positions labels (Z.of_nat i) X []) by exact Hll.
    now rewrite map_map.
  - intros p Hp. rewrite <- Hll in Hp.
    destruct (nth_error labels p) as [z|] eqn:El.
    2:{ apply nth_error_None in El. lia. }
    rewrite Forall_forall in Hrange.
    specialize (Hrange z (nth_error_In _ _ El)).
    exists (Z.to_nat z). split; [lia|].
    intros i'. rewrite in_node_ids, El. split.
    + intros H. injection H as ->. now rewrite Nat2Z.id.
    + intros ->. f_equal. lia.
  - unfold residuals, X_centered. rewrite map_map.
    rewrite (map_ext _ (fun i => length (mask_select labels (Z.of_nat i) X)))
      by (intros i; apply length_map).
    rewrite <- (map_map (fun i => mask_select labels (Z.of_nat i) X)
                  (@length (list R))).
    rewrite list_sum_lengths_concat.
    apply Permutation_length. now apply mask_groups_perm.
Qed.

Lemma nodes_partition_the_data_witness :
  exists km centers labels,
    KMeans_fit (B := Scenario.seeds_backend) 0%nat
      (KMeans_init 2 0 (Some 1%nat) (Some 0%Z)) Scenario.three_points = Ok km /\
    km_cluster_centers_ km = Some centers /\
    km_labels_ km = Some labels /\
    let residuals := X_centered 2 Scenario.three_points labels centers in
    length residuals = 2%nat /\
    (forall i, (i < 2)%nat ->
       nth i residuals [] =
       map (fun p => vsub (nth p Scenario.three_points []) (nth i centers []))
         (node_ids labels i)) /\
    (forall p, (p < length Scenario.three_points)%nat ->
       exists i, (i < 2)%nat /\
         forall i', In p (node_ids labels i') <-> i' = i) /\
    list_sum (map (@length (list R)) residuals) = length Scenario.three_points.
Proof.
  eexists. eexists. eexists.
  split; [model_eval; reflexivity|].
  split; [reflexivity|]. split; [reflexivity|].
  eapply (nodes_partition_the_data (B := Scenario.seeds_backend) 0%nat
            Scenario.coarse Scenario.three_points).
  - model_eval. reflexivity.
  - reflexivity.
  - reflexivity.
Defined.

(** ** The affinity before the rescale (lines 234-247) *)

Lemma dot_vsub_self (r c : list R) : dot r (vsub c c) = 0.
Proof.
  unfold dot, vsub. revert c.
  induction r as [|a r IH]; intros [|b c]; simpl; try reflexivity.
  rewrite IH. ring.
Qed.

Lemma sum_map_zero {A : Type} (f : A -> R) (l : list A) :
  (forall a, f a = 0) -> sum (map f l) = 0.
Proof.
  intros H. induction l as [|a l IH]; simpl; [reflexivity|].
  rewrite H, IH. ring.
Qed.

Lemma spec_raw_diagonal (centers : list (list R)) (residuals : list (list (list R)))
    (i : nat) :
  spec_raw centers residuals i i = 0.
Proof.
  unfold spec_raw. cbv zeta. rewrite Nat.eqb_refl.
  apply sum_map_zero. intros r.
  rewrite dot_vsub_self. unfold Rdiv. rewrite Rmult_0_l.
  rewrite Rmax_left by lra. ring.
Qed.

Lemma fold_left_Rmax_ge (l : list R) (x : R) :
  x <= fold_left Rmax l x /\ forall a, In a l -> a <= fold_left Rmax l x.
Proof.
  revert x; induction l as [|b l IH]; intros x; simpl.
  - split; [lra | tauto].
  - destruct (IH (Rmax x b)) as [H1 H2].
    pose proof (Rmax_l x b). pose proof (Rmax_r x b). split; [lra|].
    intros a [<-|Ha]; [lra | now apply H2].
Qed.

Lemma amax_ge (a : list (list R)) (v : R) : In v (concat a) -> v <= amax a.
Proof.
  unfold amax. destruct (concat a) as [|x l]; [intros []|].
  destruct (fold_left_Rmax_ge l x) as [H1 H2].
  intros [<-|Hin]; [exact H1 | now apply H2].
Qed.

Lemma entry_in_concat (a : list (list R)) (i j : nat) :
  (i < length a)%nat -> (j < length (nth i a []))%nat ->
  In (entry a i j) (concat a).
Proof.
  intros Hi Hj. apply in_concat. exists (nth i a []).
  split; [now apply nth_In | unfold entry; now apply nth_In].
Qed.

Lemma fold_left_Rmax_shift (l : list R) (x c : R) :
  fold_left Rmax (map (fun a => a - c) l) (x - c) = fold_left Rmax l x - c.
Proof.
  revert x; induction l as [|b l IH]; intros x; simpl; [reflexivity|].
  rewrite <- IH. f_equal.
  unfold Rmax. destruct (Rle_dec (x - c) (b - c)), (Rle_dec x b);
    try reflexivity; exfalso; lra.
Qed.

Lemma amax_recenter (a : list (list R)) :
  concat a <> [] -> amax (recenter a) = amax a - 0.5 * amax a.
Proof.
  intros Hne. unfold recenter. cbv zeta.
  set (c := 0.5 * amax a). unfold amax at 1. rewrite <- concat_map.
  unfold amax. destruct (concat a) as [|x l]; [congruence|].
  cbn [map]. apply fold_left_Rmax_shift.
Qed.

(** The symmetrized affinity is a square root. *)
Lemma affinity_entries_nonneg {B : Backend} (os : RngState)
    (self : SpectralBridges) (X : list (list R)) (km : KMeans)
    (centers : list (list R)) (labels : list Z) :
  KMeans_fit os
    (KMeans_init (n_nodes self) (n_iter self) (n_local_trials self)
       (random_state self)) X = Ok km ->
  km_cluster_centers_ km = Some centers ->
  forall i j, (i < n_nodes self)%nat -> (j < n_nodes self)%nat ->
    0 <= entry (bridge_affinity_sym (n_nodes self) X labels centers) i j.
Proof.
  intros Hkm Hc i j Hi Hj.
  pose proof (node_centroids_length os self X km centers Hkm Hc) as Hlen.
  rewrite (entry_bridge_affinity_sym (n_nodes self) X labels centers Hlen)
    by assumption.
  unfold spec_affinity. cbv zeta. apply sqrt_pos.
Qed.

Lemma mask_select_nonempty {A : Type} (mask : list Z) (i : Z) (l : list A) :
  length mask = length l -> In i mask -> mask_select mask i l <> [].
Proof.
  unfold mask_select. revert l.
  induction mask as [|m mask IH]; intros [|a l] Hlen Hin; simpl in *;
    try contradiction; try discriminate.
  destruct (m =? i)%Z eqn:E; simpl; [discriminate|].
  destruct Hin as [->|Hin]; [rewrite Z.eqb_refl in E; discriminate|].
  apply IH; [lia | exact Hin].
Qed.

(** On non-degenerate nodes no divisor of lines 241 and 246 is zero. *)
Lemma nondegenerate_divisors (n : nat) (X : list (list R)) (labels : list Z)
    (centers : list (list R)) (i j : nat) :
  length labels = length X -> length centers = n ->
  nodes_nondegenerate n labels centers ->
  (i < n)%nat -> (j < n)%nat ->
  nth j (set_item
           (map (fun s => dot s s)
              (map (fun c => vsub c (nth i centers [])) centers)) i 1) 0 <> 0 /\
  INR (nth j (nth i (pair_counts
                       (map (@length (list R)) (X_centered n X labels centers)))
                 []) 0%nat) <> 0.
Proof.
  intros Hll Hlen [Hmem Hsep] Hi Hj. split.
  - rewrite nth_set_item by (rewrite !length_map; lia).
    destruct (i =? j)%nat eqn:E; [lra|]. apply Nat.eqb_neq in E.
    rewrite (nth_map_in (fun s => dot s s) _ _ [] 0) by (rewrite length_map; lia).
    rewrite (nth_map_in (fun c => vsub c (nth i centers [])) _ _ [] []) by lia.
    now apply Hsep.
  - assert (Hc : length (map (@length (list R)) (X_centered n X labels centers)) = n).
    { now rewrite length_map, (length_X_centered n X labels centers). }
    rewrite entry_pair_counts by lia.
    apply not_0_INR.
    assert (Hpos : (0 < nth i (map (@length (list R))
                                  (X_centered n X labels centers)) 0)%nat).
    { rewrite (nth_map_in (@length (list R)) _ _ [] 0%nat)
        by (rewrite (length_X_centered n X labels centers); lia).
      unfold X_centered. rewrite nth_map_seq by exact Hi.
      rewrite length_map.
      pose proof (mask_select_nonempty labels (Z.of_nat i) X Hll (Hmem i Hi))
        as Hne.
      destruct (mask_select labels (Z.of_nat i) X); [congruence | simpl; lia]. }
    lia.
Qed.

(** The first k-means of [fit] labels every sample. *)
Lemma node_labels_length {B : Backend} (os : RngState)
    (self : SpectralBridges) (X : list (list R)) (km : KMeans)
    (labels : list Z) :
  KMeans_fit os
    (KMeans_init (n_nodes self) (n_iter self) (n_local_trials self)
       (random_state self)) X = Ok km ->
  km_labels_ km = Some labels ->
  length labels = length X.
Proof.
  intros Hkm Hl. apply KMeans_fit_inv in Hkm.
  destruct Hkm as [_ [_ [c [_ ->]]]].
  cbn in Hl. injection Hl as <-. apply length_map.
Qed.

(** X9: when every node has a member and the centroids of different nodes
    differ, the loop of lines 234-244 and line 246 divide by non-zero numbers
    only, and before the rescale no affinity is negative and every node has
    affinity zero with itself. *)
Theorem affinity_nonnegative_zero_diagonal {B : Backend} (os : RngState)
    (self : SpectralBridges) (X : list (list R)) (km : KMeans)
    (centers : list (list R)) (labels : list Z) :
  KMeans_fit os
    (KMeans_init (n_nodes self) (n_iter self) (n_local_trials self)
       (random_state self)) X = Ok km ->
  km_cluster_centers_ km = Some centers ->
  km_labels_ km = Some labels ->
  nodes_nondegenerate (n_nodes self) labels centers ->
  forall i j, (i < n_nodes self)%nat -> (j < n_nodes self)%nat ->
    let residuals := X_centered (n_nodes self) X labels centers in
    let dists :=
      set_item
        (map (fun s => dot s s)
           (map (fun c => vsub c (nth i centers [])) centers)) i 1 in
    let counts := pair_counts (map (@length (list R)) residuals) in
    nth j dists 0 <> 0 /\
    INR (nth j (nth i counts []) 0%nat) <> 0 /\
    0 <= entry (raw_affinity (n_nodes self) centers residuals) i j /\
    0 <= entry (bridge_affinity_sym (n_nodes self) X labels centers) i j /\
    entry (bridge_affinity_sym (n_nodes self) X labels centers) i i = 0.
Proof.
  intros Hkm Hc Hl Hnd i j Hi Hj residuals dists counts.
  pose proof (node_centroids_length os self X km centers Hkm Hc) as Hlen.
  pose proof (node_labels_length os self X km labels Hkm Hl) as Hll.
  destruct (nondegenerate_divisors (n_nodes self) X labels centers i j
              Hll Hlen Hnd Hi Hj) as [Hd Hk].
  split; [exact Hd|]. split; [exact Hk|]. split; [|split].
  - unfold residuals.
    rewrite (entry_raw_affinity (n_nodes self) centers Hlen)
      by auto using length_X_centered.
    unfold spec_raw. cbv zeta. apply sum_nonneg.
    apply Forall_forall. intros a Ha. apply in_map_iff in Ha.
    destruct Ha as [r [<- _]]. apply pow2_ge_0.
  - rewrite (entry_bridge_affinity_sym (n_nodes self) X labels centers Hlen)
      by assumption.
    unfold spec_affinity. cbv zeta. apply sqrt_pos.
  - rewrite (entry_bridge_affinity_sym (n_nodes self) X labels centers Hlen)
      by assumption.
    unfold spec_affinity. cbv zeta. rewrite spec_raw_diagonal.
    unfold Rdiv. rewrite Rplus_0_l, Rmult_0_l. apply sqrt_0.
Qed.

Lemma affinity_nonnegative_zero_diagonal_witness :
  exists km centers labels,
    KMeans_fit (B := Scenario.seeds_backend) 0%nat
      (KMeans_init 2 0 (Some 1%nat) (Some 0%Z)) Scenario.three_points = Ok km /\
    km_cluster_centers_ km = Some centers /\
    km_labels_ km = Some labels /\
    nodes_nondegenerate 2 labels centers /\
    forall i j, (i < 2)%nat -> (j < 2)%nat ->
      let residuals := X_centered 2 Scenario.three_points labels centers in
      let dists :=
        set_item
          (map (fun s => dot s s)
             (map (fun c => vsub c (nth i centers [])) centers)) i 1 in
      let counts := pair_counts (map (@length (list R)) residuals) in
      nth j dists 0 <> 0 /\
      INR (nth j (nth i counts []) 0%nat) <> 0 /\
      0 <= entry (raw_affinity 2 centers residuals) i j /\
      0 <= entry (bridge_affinity_sym 2 Scenario.three_points labels centers) i j /\
      entry (bridge_affinity_sym 2 Scenario.three_points labels centers) i i = 0.
Proof.
  eexists. exists [[0]; [3]], [0; 0; 1]%Z.
  split; [exact coarse_nodes|].
  split; [reflexivity|]. split; [reflexivity|].
  split; [exact coarse_nondegenerate|].
  apply (affinity_nonnegative_zero_diagonal (B := Scenario.seeds_backend)
           0%nat Scenario.coarse Scenario.three_points _ [[0]; [3]]
           [0; 0; 1]%Z coarse_nodes eq_refl eq_refl coarse_nondegenerate).
Defined.

(** X10: when every node has a member and the centroids of different nodes
    differ, after [affinity -= 0.5 * affinity.max()] the largest entry is half
    the former maximum [m], and every entry lies between [-m/2] and [m/2]. *)
Theorem recentered_affinity_range {B : Backend} (os : RngState)
    (self : SpectralBridges) (X : list (list R)) (km : KMeans)
    (centers : list (list R)) (labels : list Z) :
  KMeans_fit os
    (KMeans_init (n_nodes self) (n_iter self) (n_local_trials self)
       (random_state self)) X = Ok km ->
  km_cluster_centers_ km = Some centers ->
  km_labels_ km = Some labels ->
  nodes_nondegenerate (n_nodes self) labels centers ->
  let sym := bridge_affinity_sym (n_nodes self) X labels centers in
  let m := amax sym in
  0 <= m /\
  amax (recenter sym) = m / 2 /\
  forall i j, (i < n_nodes self)%nat -> (j < n_nodes self)%nat ->
    entry (recenter sym) i j = entry sym i j - m / 2 /\
    - (m / 2) <= entry (recenter sym) i j <= m / 2.
Proof.
  intros Hkm Hc Hl Hnd sym m.
  pose proof (node_centroids_length os self X km centers Hkm Hc) as Hlen.
  destruct (bridge_affinity_sym_shape (n_nodes self) X labels centers Hlen)
    as [Hrows Hcols]. fold sym in Hrows, Hcols.
  assert (Hn : (0 < n_nodes self)%nat).
  { apply KMeans_fit_inv in Hkm. cbn in Hkm. lia. }
  assert (Hnn : forall i j, (i < n_nodes self)%nat -> (j < n_nodes self)%nat ->
            0 <= entry sym i j <= m).
  { intros i j Hi Hj. split.
    - now apply (affinity_entries_nonneg os self X km centers labels Hkm Hc).
    - apply amax_ge. apply entry_in_concat; [lia | rewrite Hcols; lia]. }
  assert (Hm : 0 <= m) by (destruct (Hnn 0%nat 0%nat Hn Hn); lra).
  split; [exact Hm|]. split.
  - rewrite amax_recenter; [fold m; lra|].
    intros E. pose proof (entry_in_concat sym 0 0) as Hin.
    rewrite E in Hin. apply Hin; [lia | rewrite Hcols; lia].
  - intros i j Hi Hj.
    assert (He : entry (recenter sym) i j = entry sym i j - m / 2).
    { unfold recenter. cbv zeta.
      rewrite entry_map_map by (rewrite ?Hcols; lia). fold m. lra. }
    split; [exact He|]. rewrite He. destruct (Hnn i j Hi Hj). lra.
Qed.

Lemma recentered_affinity_range_witness :
  exists km centers labels,
    KMeans_fit (B := Scenario.seeds_backend) 0%nat
      (KMeans_init 2 0 (Some 1%nat) (Some 0%Z)) Scenario.three_points = Ok km /\
    km_cluster_centers_ km = Some centers /\
    km_labels_ km = Some labels /\
    nodes_nondegenerate 2 labels centers /\
    let sym := bridge_affinity_sym 2 Scenario.three_points labels centers in
    let m := amax sym in
    0 <= m /\
    amax (recenter sym) = m / 2 /\
    forall i j, (i < 2)%nat -> (j < 2)%nat ->
      entry (recenter sym) i j = entry sym i j - m / 2 /\
      - (m / 2) <= entry (recenter sym) i j <= m / 2.
Proof.
  eexists. exists [[0]; [3]], [0; 0; 1]%Z.
  split; [exact coarse_nodes|].
  split; [reflexivity|]. split; [reflexivity|].
  split; [exact coarse_nondegenerate|].
  apply (recentered_affinity_range (B := Scenario.seeds_backend)
           0%nat Scenario.coarse Scenario.three_points _ [[0]; [3]]
           [0; 0; 1]%Z coarse_nodes eq_refl eq_refl coarse_nondegenerate).
Defined.

(** ** Percentiles and the contrast rescale (lines 249-252) *)

Lemma insert_sorted_In (x y : R) (l : list R) :
  In y (insert_sorted x l) <-> y = x \/ In y l.
Proof.
  induction l as [|a l IH]; simpl.
  - intuition congruence.
  - destruct (Rle_dec x a); simpl; rewrite ?IH; intuition congruence.
Qed.

Lemma length_insert_sorted (x : R) (l : list R) :
  length (insert_sorted x l) = S (length l).
Proof.
  induction l as [|a l IH]; simpl; [reflexivity|].
  destruct (Rle_dec x a); simpl; [reflexivity | now rewrite IH].
Qed.

Lemma length_sort (l : list R) : length (sort l) = length l.
Proof.
  induction l as [|a l IH]; simpl; [reflexivity|].
  now rewrite length_insert_sorted, IH.
Qed.

Lemma insert_sorted_sorted (x : R) (l : list R) :
  StronglySorted Rle l -> StronglySorted Rle (insert_sorted x l).
Proof.
  induction 1 as [|a l Hs IH Ha]; simpl.
  - constructor; constructor.
  - destruct (Rle_dec x a) as [Hle|Hgt].
    + constructor; [now constructor|]. constructor; [exact Hle|].
      apply Forall_forall. intros y Hy. rewrite Forall_forall in Ha.
      specialize (Ha y Hy). lra.
    + constructor; [exact IH|]. apply Forall_forall. intros y Hy.
      apply insert_sorted_In in Hy. destruct Hy as [->|Hy]; [lra|].
      rewrite Forall_forall in Ha. now apply Ha.
Qed.

Lemma sort_sorted (l : list R) : StronglySorted Rle (sort l).
Proof.
  induction l as [|a l IH]; simpl; [constructor|].
  now apply insert_sorted_sorted.
Qed.

Lemma sorted_nth_le (l : list R) (i j : nat) :
  StronglySorted Rle l -> (i <= j < length l)%nat -> nth i l 0 <= nth j l 0.
Proof.
  intros Hs. revert i j. induction Hs as [|a l Hs IH Ha]; intros i j Hij.
  - simpl in Hij. lia.
  - destruct i as [|i], j as [|j]; simpl in *; try lia; try lra.
    + rewrite Forall_forall in Ha. apply Ha. apply nth_In. lia.
    + apply IH. lia.
Qed.

(** [np.quantile(a, q)] does not decrease when [q] grows. *)
Lemma quantile_monotone (a : list R) (num1 num2 den : nat) :
  (0 < den)%nat -> (num1 <= num2 <= den)%nat ->
  quantile a num1 den <= quantile a num2 den.
Proof.
  intros Hden Hnum. unfold quantile. cbv zeta.
  pose proof (sort_sorted a) as Hs. pose proof (length_sort a) as Hl.
  set (s := sort a) in *. set (N := length a) in *.
  destruct N as [|M] eqn:EN.
  { destruct s; [|discriminate]. rewrite !Nat.mul_0_r.
    rewrite Nat.Div0.div_0_l. destruct (Nat.min 1 (0 - 1)); simpl; lra. }
  replace (S M - 1)%nat with M by lia.
  set (h1 := (num1 * M)%nat). set (h2 := (num2 * M)%nat).
  assert (Hh : (h1 <= h2)%nat) by (unfold h1, h2; nia).
  assert (Hh2 : (h2 <= den * M)%nat) by (unfold h2; nia).
  assert (Hlo : (h1 / den <= h2 / den)%nat) by (apply Nat.Div0.div_le_mono; lia).
  assert (Hlo2 : (h2 / den <= M)%nat).
  { apply Nat.Div0.div_le_upper_bound. lia. }
  pose proof (Nat.div_mod_eq h1 den) as E1.
  pose proof (Nat.div_mod_eq h2 den) as E2.
  pose proof (Nat.mod_upper_bound h1 den ltac:(lia)) as B1.
  pose proof (Nat.mod_upper_bound h2 den ltac:(lia)) as B2.
  assert (HdenR : 0 < INR den) by (apply lt_0_INR; lia).
  assert (Hg : forall h, (h mod den < den)%nat ->
            0 <= INR (h mod den) / INR den <= 1).
  { intros h Hb. split.
    - apply Rmult_le_pos; [apply pos_INR | left; now apply Rinv_0_lt_compat].
    - apply Rmult_le_reg_r with (INR den); [exact HdenR|].
      unfold Rdiv. rewrite Rmult_assoc, Rinv_l by lra.
      rewrite Rmult_1_r, Rmult_1_l. apply le_INR. lia. }
  assert (Hstep : forall lo, (lo <= M)%nat ->
            nth lo s 0 <= nth (Nat.min (S lo) M) s 0).
  { intros lo Hle. apply sorted_nth_le; [exact Hs | lia]. }
  set (lo1 := (h1 / den)%nat) in *. set (lo2 := (h2 / den)%nat) in *.
  pose proof (Hstep lo1 ltac:(lia)) as S1.
  pose proof (Hstep lo2 ltac:(lia)) as S2.
  destruct (Hg h1 B1) as [G1a G1b]. destruct (Hg h2 B2) as [G2a G2b].
  set (g1 := INR (h1 mod den) / INR den) in *.
  set (g2 := INR (h2 mod den) / INR den) in *.
  destruct (Nat.eq_dec lo1 lo2) as [Heq|Hne].
  - rewrite <- Heq in *.
    assert (Hg12 : g1 <= g2).
    { unfold g1, g2. apply Rmult_le_compat_r;
        [left; now apply Rinv_0_lt_compat|].
      apply le_INR. fold lo1 in E1. lia. }
    nra.
  - assert (Hmid : nth (Nat.min (S lo1) M) s 0 <= nth lo2 s 0).
    { apply sorted_nth_le; [exact Hs | lia]. }
    nra.
Qed.

(** X11: the 10th percentile is at most the 90th; for a contrast [M > 1] and
    distinct percentiles [gamma] is positive, so the rescale
    [a -> exp(gamma * a)] keeps the order of the affinities. *)
Theorem rescale_preserves_order (M : R) (affinity : list (list R)) :
  1 < M ->
  q90 affinity <> q10 affinity ->
  q10 affinity < q90 affinity /\
  0 < contrast_gamma M affinity /\
  forall a b,
    a < b <->
    rescale_value (contrast_gamma M affinity) a
    < rescale_value (contrast_gamma M affinity) b.
Proof.
  intros HM Hq.
  assert (Hle : q10 affinity <= q90 affinity).
  { unfold q10, q90. apply quantile_monotone; lia. }
  assert (Hlt : q10 affinity < q90 affinity) by lra.
  assert (Hln : 0 < ln M).
  { rewrite <- ln_1. apply ln_increasing; lra. }
  assert (Hg : 0 < contrast_gamma M affinity).
  { unfold contrast_gamma. apply Rmult_lt_0_compat; [exact Hln|].
    apply Rinv_0_lt_compat. lra. }
  split; [exact Hlt|]. split; [exact Hg|].
  intros a b. unfold rescale_value. split.
  - intros Hab. apply exp_increasing. now apply Rmult_lt_compat_l.
  - intros He. apply exp_lt_inv in He.
    now apply Rmult_lt_reg_l in He.
Qed.

Lemma rescale_preserves_order_witness :
  let affinity := [[-0.5; 0.5]; [0.5; -0.5]] in
  q10 affinity < q90 affinity /\
  0 < contrast_gamma 10000 affinity /\
  forall a b,
    a < b <->
    rescale_value (contrast_gamma 10000 affinity) a
    < rescale_value (contrast_gamma 10000 affinity) b.
Proof.
  apply (rescale_preserves_order 10000 [[-0.5; 0.5]; [0.5; -0.5]]).
  - lra.
  - destruct quantiles_two_by_two as [-> ->]. lra.
Defined.

(** ** The spectral embedding ([_SpectralClustering.fit], lines 152-153) *)

Lemma dot_self_nonneg (r : list R) : 0 <= dot r r.
Proof.
  unfold dot. induction r as [|a r IH]; simpl; [lra|].
  pose proof (Rle_0_sqr a) as Ha. unfold Rsqr in Ha. lra.
Qed.

Lemma dot_scaled (r : list R) (s : R) :
  dot (map (fun v => v / s) r) (map (fun v => v / s) r) = dot r r * (/ s * / s).
Proof.
  unfold dot. induction r as [|a r IH]; simpl; [ring|].
  rewrite IH. unfold Rdiv. ring.
Qed.

(** X13: row [i] of the embedding is the first [k] entries of row [i] of the
    eigenvector matrix divided by their Euclidean norm: it has at most [k]
    entries, and unless those entries are all zero it is a unit vector. *)
Theorem embedding_rows_are_unit (k : nat) (eigvecs : list (list R)) (i : nat) :
  (i < length eigvecs)%nat ->
  let r := firstn k (nth i eigvecs []) in
  let e := nth i (embedding k eigvecs) [] in
  length (embedding k eigvecs) = length eigvecs /\
  e = map (fun v => v / sqrt (dot r r)) r /\
  (length e <= k)%nat /\
  (dot r r <> 0 -> dot e e = 1).
Proof.
  intros Hi r e. unfold embedding in *.
  split; [now rewrite !length_map|].
  assert (He : e = map (fun v => v / sqrt (dot r r)) r).
  { unfold e, r.
    rewrite (nth_map_in (fun row => map (fun v => v / sqrt (dot row row)) row)
               _ i [] []) by (rewrite length_map; exact Hi).
    now rewrite (nth_map_in (firstn k) _ i [] []) by exact Hi. }
  split; [exact He|]. split.
  - rewrite He, length_map. unfold r. rewrite length_firstn. lia.
  - intros Hne. rewrite He, dot_scaled.
    pose proof (dot_self_nonneg r) as Hnn.
    assert (Hs : sqrt (dot r r) * sqrt (dot r r) = dot r r)
      by (apply sqrt_sqrt; exact Hnn).
    assert (Hsne : sqrt (dot r r) <> 0).
    { intros E. rewrite E in Hs. lra. }
    rewrite <- Rinv_mult. rewrite Hs. now apply Rinv_r.
Qed.

Lemma embedding_rows_are_unit_witness :
  let eigvecs := [[3; 4; 12]; [1; 0; 5]] in
  let r := firstn 2 (nth 0 eigvecs []) in
  let e := nth 0 (embedding 2 eigvecs) [] in
  length (embedding 2 eigvecs) = length eigvecs /\
  e = map (fun v => v / sqrt (dot r r)) r /\
  (length e <= 2)%nat /\
  (dot r r <> 0 -> dot e e = 1).
Proof.
  apply (embedding_rows_are_unit 2 [[3; 4; 12]; [1; 0; 5]] 0). simpl. lia.
Defined.

(** ** [predict] on the centroids of the model *)

Lemma sqdist_zero_eq (q c : list R) :
  length q = length c -> sqdist q c = 0 -> q = c.
Proof.
  unfold sqdist, dot, vsub. revert c.
  induction q as [|a q IH]; intros [|b c] Hlen H; simpl in *;
    try discriminate; [reflexivity|].
  pose proof (sqdist_nonneg q c) as Hnn. unfold sqdist, dot, vsub in Hnn.
  pose proof (Rle_0_sqr (a - b)) as Hsq. unfold Rsqr in Hsq.
  assert (Hab : (a - b) * (a - b) = 0) by lra.
  assert (Hrest : sum (map2 Rmult (map2 Rminus q c) (map2 Rminus q c)) = 0)
    by lra.
  apply Rmult_integral in Hab.
  f_equal; [destruct Hab; lra | apply IH; [lia | exact Hrest]].
Qed.

Lemma sqdist_self (q : list R) : sqdist q q = 0.
Proof. unfold sqdist. apply dot_vsub_self. Qed.

(** X15: [predict] recognises the node centroids of the fitted model: applied
    to a centroid stored in some group, it returns a group that contains
    that centroid. *)
Theorem predict_recovers_stored_centroids {B : Backend} (os1 os2 : RngState)
    (self sb : SpectralBridges) (X : list (list R)) (d : nat)
    (groups : list (list (list R))) (g0 : nat) (c : list R) :
  fit os1 os2 self X = Ok sb ->
  cluster_centers_ sb = Some groups ->
  Forall (fun v => length v = d) (concat groups) ->
  In c (nth g0 groups []) ->
  exists g,
    predict sb d [c] = Ok [g] /\
    (g < n_clusters sb)%nat /\
    In c (nth g groups []).
Proof.
  intros Hfit Hg Hd Hin.
  assert (Hflat : In c (concat groups)).
  { apply in_concat. exists (nth g0 groups []). split; [|exact Hin].
    destruct (Nat.lt_ge_cases g0 (length groups)) as [Hlt|Hge];
      [now apply nth_In|].
    rewrite nth_overflow in Hin by exact Hge. destruct Hin. }
  assert (Hne : concat groups <> []) by (intros E; rewrite E in Hflat; destruct Hflat).
  assert (Hgne : groups <> []) by (intros E; rewrite E in Hne; now apply Hne).
  assert (Hk : length groups = n_clusters sb).
  { apply fit_inv in Hfit.
    destruct Hfit as (km & centers & eigvals & slabels & _ & _ & _ & _ & _
                      & _ & _ & _ & ->).
    cbn in Hg |- *. injection Hg as <-.
    unfold group_centers. now rewrite length_map, length_seq. }
  rewrite (predict_fitted sb groups d [c] Hg Hgne Hd). cbn [map].
  destruct (search1_spec (concat groups) c Hne) as [w [Hs [Hw Hmin]]].
  rewrite Hs.
  destruct (owns_of_winner groups w Hw) as [Hlt [Hoff Hnth]].
  eexists. split; [reflexivity|]. split; [lia|].
  assert (Hz : sqdist c (nth w (concat groups) []) = 0).
  { pose proof (Hmin c Hflat) as Hle. rewrite sqdist_self in Hle.
    pose proof (sqdist_nonneg c (nth w (concat groups) [])). lra. }
  apply sqdist_zero_eq in Hz.
  - rewrite Hz, <- Hnth. apply nth_In. lia.
  - rewrite Forall_forall in Hd.
    rewrite (Hd c Hflat). symmetry. apply Hd. now apply nth_In.
Qed.

Lemma predict_recovers_stored_centroids_witness :
  exists sb groups,
    fit (B := Scenario.seeds_backend) 0%nat 0%nat
      Scenario.coarse Scenario.three_points = Ok sb /\
    cluster_centers_ sb = Some groups /\
    Forall (fun v => length v = 1%nat) (concat groups) /\
    In [3] (nth 0 groups []) /\
    exists g,
      predict sb 1 [[3]] = Ok [g] /\
      (g < n_clusters sb)%nat /\
      In [3] (nth g groups []).
Proof.
  eexists. eexists.
  split; [model_eval; reflexivity|]. split; [reflexivity|].
  assert (Hd : Forall (fun v : list R => length v = 1%nat)
                 (concat [[[0]; [3]]])) by (repeat constructor).
  assert (Hin : In [3] (nth 0 [[[0]; [3]]] [])) by (simpl; auto).
  split; [exact Hd|]. split; [exact Hin|].
  eapply (predict_recovers_stored_centroids (B := Scenario.seeds_backend)
            0%nat 0%nat Scenario.coarse _ Scenario.three_points 1 _ 0 [3]).
  - model_eval. reflexivity.
  - reflexivity.
  - exact Hd.
  - exact Hin.
Defined.

(** ** The range of the eigengap diagnostic (lines 299-301) *)

(** X16: when the two eigenvalues around the cut are in ascending order, the
    lower one non-negative and the upper one positive (as the eigenvalues of
    a normalized Laplacian are, up to the first), the diagnostic returns a
    number between 0 and 1. *)
Theorem normalized_eigengap_range (sb : SpectralBridges) (eigvals : list R) :
  eigvals_ sb = Some eigvals ->
  (1 <= n_clusters sb < length eigvals)%nat ->
  0 <= nth (n_clusters sb - 1) eigvals 0 <= nth (n_clusters sb) eigvals 0 ->
  0 < nth (n_clusters sb) eigvals 0 ->
  exists gap, normalized_eigengap sb = Ok gap /\ 0 <= gap <= 1.
Proof.
  intros He Hk [Hlo Hle] Hpos.
  rewrite (normalized_eigengap_in_range sb eigvals He Hk).
  eexists. split; [reflexivity|].
  set (u := nth (n_clusters sb) eigvals 0) in *.
  set (l := nth (n_clusters sb - 1) eigvals 0) in *.
  split.
  - apply Rmult_le_pos; [lra | left; now apply Rinv_0_lt_compat].
  - apply Rmult_le_reg_r with u; [exact Hpos|].
    unfold Rdiv. rewrite Rmult_assoc, Rinv_l by lra. lra.
Qed.

Lemma normalized_eigengap_range_witness :
  let sb := mkSpectralBridges 1 2 10000 20 None None (Some [[[0]; [3]]])
              (Some [0; 2]) in
  exists gap, normalized_eigengap sb = Ok gap /\ 0 <= gap <= 1.
Proof.
  intros sb.
  apply (normalized_eigengap_range sb [0; 2]).
  - reflexivity.
  - cbn. lia.
  - cbn. lra.
  - cbn. lra.
Defined.

(** ** The outcome of [_SpectralClustering.fit] (lines 141-157) *)

(** X14: after [_SpectralClustering.fit], [eigvals_] is the eigenvalue array
    returned by [eigh] for the normalized Laplacian of the affinity, and
    [labels_] has one entry per eigenvalue, each the index in
    [[0, n_clusters)] of a centre of the second k-means nearest to the
    embedding row; [n_clusters] and [random_state] keep their values. *)
Theorem SpectralClustering_fit_outcome {B : Backend} (os : RngState)
    (sc sc' : SpectralClustering) (affinity : list (list R)) :
  SpectralClustering_fit os sc affinity = Ok sc' ->
  exists (eigvals : list R) (eigvecs : list (list R)) (km : KMeans)
         (labels : list Z),
    eigh (laplacian_normed affinity) = Ok (eigvals, eigvecs) /\
    KMeans_fit os (KMeans_init (sc_n_clusters sc) 20 None (sc_random_state sc))
      (embedding (sc_n_clusters sc) eigvecs) = Ok km /\
    sc_eigvals_ sc' = Some eigvals /\
    sc_labels_ sc' = Some labels /\
    km_labels_ km = Some labels /\
    length labels = length eigvals /\
    Forall (fun z => (0 <= z < Z.of_nat (sc_n_clusters sc))%Z) labels /\
    sc_n_clusters sc' = sc_n_clusters sc /\
    sc_random_state sc' = sc_random_state sc.
Proof.
  unfold SpectralClustering_fit. intros H.
  bind_inv H. destruct a as [eigvals eigvecs].
  pose proof Hcall as Hshape. apply eigh_shape in Hshape.
  bind_inv H. rename a into km. injection H as <-.
  pose proof Hcall0 as Hkm. apply KMeans_fit_inv in Hcall0.
  destruct Hcall0 as [_ [Hk [centroids [Hlen ->]]]].
  cbn [KMeans_init km_n_clusters km_labels_] in *.
  exists eigvals, eigvecs. eexists. eexists.
  split; [exact Hcall|]. split; [exact Hkm|].
  cbn [sc_eigvals_ sc_labels_ sc_n_clusters sc_random_state km_labels_].
  repeat split.
  - unfold embedding. rewrite !length_map. now symmetry.
  - apply Forall_forall. intros z Hz. apply in_map_iff in Hz.
    destruct Hz as [q [<- _]]. rewrite <- Hlen. apply search1_range.
    intros ->. simpl in Hlen. congruence.
Qed.

Lemma SpectralClustering_fit_outcome_witness :
  exists sc',
    SpectralClustering_fit (B := Scenario.seeds_backend) 0%nat
      (SpectralClustering_init 1 (Some 0%Z)) [[1; 2]; [2; 1]] = Ok sc' /\
    exists (eigvals : list R) (eigvecs : list (list R)) (km : KMeans)
           (labels : list Z),
      Scenario.diag_eigh (Scenario.sym_laplacian [[1; 2]; [2; 1]])
        = Ok (eigvals, eigvecs) /\
      KMeans_fit (B := Scenario.seeds_backend) 0%nat
        (KMeans_init 1 20 None (Some 0%Z)) (embedding 1 eigvecs) = Ok km /\
      sc_eigvals_ sc' = Some eigvals /\
      sc_labels_ sc' = Some labels /\
      km_labels_ km = Some labels /\
      length labels = length eigvals /\
      Forall (fun z => (0 <= z < Z.of_nat 1)%Z) labels /\
      sc_n_clusters sc' = 1%nat /\
      sc_random_state sc' = Some 0%Z.
Proof.
  eexists. split; [model_eval; reflexivity|].
  apply (SpectralClustering_fit_outcome (B := Scenario.seeds_backend) 0%nat
           (SpectralClustering_init 1 (Some 0%Z)) _ [[1; 2]; [2; 1]]).
  model_eval. reflexivity.
Defined.

(** ** The range of the rescaled affinity (lines 247-252) *)

Lemma contrast_gamma_pos (M : R) (affinity : list (list R)) :
  1 < M -> q90 affinity <> q10 affinity -> 0 < contrast_gamma M affinity.
Proof.
  intros HM Hq.
  assert (Hle : q10 affinity <= q90 affinity).
  { unfold q10, q90. apply quantile_monotone; lia. }
  assert (Hln : 0 < ln M) by (rewrite <- ln_1; apply ln_increasing; lra).
  unfold contrast_gamma. apply Rmult_lt_0_compat; [exact Hln|].
  apply Rinv_0_lt_compat. lra.
Qed.

(** X12: for a matrix without negative entries (as the symmetrized affinity is),
    a contrast [M > 1] and distinct percentiles, recentring and rescaling
    sends the entry [a] to [exp(gamma * (a - m/2))], [m] the largest entry:
    every result lies between [exp(-gamma*m/2)] and [exp(gamma*m/2)], and
    the entries that were zero (the diagonal of the affinity) become the
    smallest value [exp(-gamma*m/2)]. *)
Theorem rescaled_affinity_bounds (M : R) (sym : list (list R)) (i j : nat) :
  let recentered := recenter sym in
  let gamma := contrast_gamma M recentered in
  let m := amax sym in
  1 < M ->
  q90 recentered <> q10 recentered ->
  (i < length sym)%nat -> (j < length (nth i sym []))%nat ->
  0 <= entry sym i j ->
  entry (rescale M recentered) i j = exp (gamma * (entry sym i j - m / 2)) /\
  exp (- (gamma * (m / 2))) <= entry (rescale M recentered) i j
    <= exp (gamma * (m / 2)) /\
  (entry sym i j = 0 ->
   entry (rescale M recentered) i j = exp (- (gamma * (m / 2)))).
Proof.
  intros recentered gamma m HM Hq Hi Hj Hnn.
  pose proof (contrast_gamma_pos M recentered HM Hq) as Hg. fold gamma in Hg.
  assert (Hle : entry sym i j <= m).
  { apply amax_ge. now apply entry_in_concat. }
  assert (He : entry (rescale M recentered) i j
               = exp (gamma * (entry sym i j - m / 2))).
  { unfold rescale. cbv zeta. fold gamma. unfold recentered, recenter.
    cbv zeta. fold m.
    rewrite entry_map_map
      by (rewrite ?length_map; try exact Hi;
          rewrite length_row_map_map by exact Hi; exact Hj).
    rewrite entry_map_map by assumption.
    unfold rescale_value. f_equal. f_equal. lra. }
  split; [exact He|]. split.
  - rewrite He. split.
    + destruct (Req_dec (entry sym i j) 0) as [E|E].
      * right. f_equal. rewrite E. lra.
      * left. apply exp_increasing. nra.
    + destruct (Req_dec (entry sym i j) m) as [E|E].
      * right. f_equal. rewrite E. lra.
      * left. apply exp_increasing. nra.
  - intros E. rewrite He, E. f_equal. lra.
Qed.

Lemma rescaled_affinity_bounds_witness :
  let sym := [[0; 1]; [1; 0]] in
  let recentered := recenter sym in
  let gamma := contrast_gamma 10000 recentered in
  let m := amax sym in
  entry (rescale 10000 recentered) 0 1 = exp (gamma * (entry sym 0 1 - m / 2)) /\
  exp (- (gamma * (m / 2))) <= entry (rescale 10000 recentered) 0 1
    <= exp (gamma * (m / 2)) /\
  (entry sym 0 1 = 0 ->
   entry (rescale 10000 recentered) 0 1 = exp (- (gamma * (m / 2)))).
Proof.
  apply (rescaled_affinity_bounds 10000 [[0; 1]; [1; 0]] 0 1).
  - lra.
  - rewrite recenter_two_by_two.
    destruct quantiles_two_by_two as [-> ->]. lra.
  - simpl. lia.
  - simpl. lia.
  - unfold entry. simpl. lra.
Defined.
